(** * Subamerica Relay 2.1 (src/server.js): a shallow embedding

    The relay keeps two pieces of process-wide state, the now-playing
    singleton and the short-token map, and serves five routes over them.
    Each route handler of server.js is a function here: it takes the state
    and the request, plus whatever the outside world answered to the one
    outbound call the handler makes, and gives the response and the state
    afterwards.  Time is the millisecond clock of [Date.now()], an integer. *)

From Stdlib Require Import Ascii.
From stdpp Require Import gmap strings list fin_maps pretty.

Local Open Scope Z_scope.

(** ** JavaScript scalars

    Fields of request bodies and of upstream JSON are tested for truthiness,
    defaulted with [||] and spliced into template strings.  [VNum] stands for
    an integer-valued number; fractional numbers do not occur in the fields
    modelled here (ids). *)

Inductive value :=
  | VUndefined
  | VNull
  | VBool (b : bool)
  | VNum (n : Z)
  | VStr (s : string).

#[global] Instance value_eq_dec : EqDecision value.
Proof. solve_decision. Defined.

(** [!!v] of JavaScript. *)
Definition truthy (v : value) : bool :=
  match v with
  | VUndefined | VNull => false
  | VBool b => b
  | VNum n => negb (n =? 0)
  | VStr s => negb (String.eqb s "")
  end.

(** [a || b]. *)
Definition js_or (a b : value) : value := if truthy a then a else b.

(** [String(v)], also what a template literal splices in. *)
Definition to_string (v : value) : string :=
  match v with
  | VUndefined => "undefined"
  | VNull => "null"
  | VBool true => "true"
  | VBool false => "false"
  | VNum n => pretty n
  | VStr s => s
  end.

(** A string held in a nullable slot ([out.appId], [out.streamKey]):
    [!slot] is true for [null] and for the empty string. *)
Definition truthy_str (o : option string) : bool :=
  match o with
  | Some s => negb (String.eqb s "")
  | None => false
  end.

(** ** JSON values in general

    A field that the code converts or calls a method on before it has
    looked at its type: [req.body.m3u8] (line 74) and the [streamKey] of a
    directory record (line 110) can be any JSON value. *)

#[local] Unset Elimination Schemes.
Inductive json :=
  | JScalar (v : value)
  | JArr (items : list json)
  | JObj (fields : list (string * json)).
#[local] Set Elimination Schemes.

(** Arrays and objects are truthy. *)
Definition json_truthy (j : json) : bool :=
  match j with
  | JScalar v => truthy v
  | _ => true
  end.

(** Whether a parsed object has an own property of that name. *)
Definition has_own (name : string) (fields : list (string * json)) : bool :=
  existsb (fun kv => String.eqb kv.1 name) fields.

(** [String(j)], or [None] when the conversion throws a TypeError.  An
    array is its items joined by commas, [null] items printing as nothing.
    An object without an own [toString] prints through
    [Object.prototype.toString]; with an own [toString], which in parsed
    JSON is never a function, neither [toString] nor [valueOf] yields a
    primitive and the conversion throws. *)
Fixpoint json_to_string (j : json) : option string :=
  match j with
  | JScalar v => Some (to_string v)
  | JArr items =>
    (fix join (l : list json) : option string :=
       match l with
       | [] => Some EmptyString
       | x :: rest =>
         let item :=
           match x with
           | JScalar VNull | JScalar VUndefined => Some EmptyString
           | _ => json_to_string x
           end in
         match rest with
         | [] => item
         | _ =>
           match item, join rest with
           | Some a, Some b => Some (a +:+ "," +:+ b)
           | _, _ => None
           end
         end
       end) items
  | JObj fields =>
    if has_own "toString" fields then None else Some "[object Object]"
  end.

(** An HTTP response: status code and body. *)
Record response (B : Type) := Response { status : Z; body : B }.
Arguments Response {B} _ _.
Arguments status {B} _.
Arguments body {B} _.

(** What becomes of a request: the handler answers, or it throws outside
    every [try], so that its promise rejects and no line of the handler
    sends anything. *)
Inductive reply (B : Type) :=
  | Answer (r : response B)
  | Throws.
Arguments Answer {B} _.
Arguments Throws {B}.

(** What an awaited [fetch(...)] followed by [r.json()] hands to the handler:
    either of the two calls threw, or the JSON is not an array, or it is one. *)
Inductive fetched (A : Type) :=
  | FetchThrows
  | NotArray
  | IsArray (arr : list A).
Arguments FetchThrows {A}.
Arguments NotArray {A}.
Arguments IsArray {A} _.

(** ** The token store and its sweep *)

(** [token -> { product_id, artist_id, createdAt }] *)
Record token_rec := TokenRec {
  product_id : value;
  tok_artist_id : value;
  createdAt : Z
}.

#[global] Instance token_rec_eq_dec : EqDecision token_rec.
Proof. solve_decision. Defined.

(** The test of line 61, [now - obj.createdAt > SHORT_TTL_MS]. *)
Definition stale (ttl now : Z) (obj : token_rec) : bool :=
  ttl <? now - createdAt obj.

(** [pruneTokens]: walk the entries of the map and delete, from the map
    itself, each one that tests stale.  [now] is read once, before the loop. *)
Definition pruneTokens (ttl now : Z) (tokenStore : gmap string token_rec)
  : gmap string token_rec :=
  map_fold (fun tok obj store => if stale ttl now obj then delete tok store else store)
           tokenStore tokenStore.

(** The sweep timer: [setInterval(pruneTokens, 60 * 1000)]. *)
Definition SWEEP_INTERVAL_MS : Z := 60 * 1000.

(** ** Process state and configuration *)

(** [nowPlaying = { artist_id, artist_name, ts }] *)
Record now_playing := NowPlaying {
  artist_id : value;
  artist_name : value;
  ts : Z
}.

(** [let nowPlaying = { artist_id: null, artist_name: null, ts: 0 }] *)
Definition nowPlaying0 : now_playing :=
  {| artist_id := VNull; artist_name := VNull; ts := 0 |}.

Record state := State {
  nowPlaying : now_playing;
  tokenStore : gmap string token_rec
}.

(** The state at start-up (lines 29-30). *)
Definition state0 : state := {| nowPlaying := nowPlaying0; tokenStore := ∅ |}.

(** One firing of the sweep timer at clock value [now]. *)
Definition sweep (ttl now : Z) (st : state) : state :=
  {| nowPlaying := nowPlaying st;
     tokenStore := pruneTokens ttl now (tokenStore st) |}.

(** The environment-derived constants the handlers read, and the SKU map
    loaded from sku_map.json (its own properties). *)
Record config := Config {
  SHOP_BASE : string;
  SHORT_TTL_MS : Z;
  OFFER_TTL_SEC : Z;
  LIVEPUSH_API_TOKEN : string;
  skuMap : gmap string value
}.

(** What the handlers read of the incoming request besides its body and
    route parameters: [req.protocol] and [req.get('host')]. *)
Record request := Request { protocol : string; host : string }.

(** ** Property lookup on the SKU map

    [skuMap] is a plain object, and [skuMap[artistId]] is an ordinary
    property read: an own property if there is one, otherwise whatever the
    object inherits from [Object.prototype].  The inherited members are
    functions (and, for [__proto__], the prototype object itself). *)

Definition Object_prototype : list string :=
  [ "constructor"; "__proto__"; "hasOwnProperty"; "isPrototypeOf";
    "propertyIsEnumerable"; "toLocaleString"; "toString"; "valueOf";
    "__defineGetter__"; "__defineSetter__"; "__lookupGetter__";
    "__lookupSetter__" ].

Inductive property :=
  | Own (v : value)
  | Inherited (name : string)
  | Missing.

Definition get_property (o : gmap string value) (key : string) : property :=
  match o !! key with
  | Some v => Own v
  | None => if bool_decide (key ∈ Object_prototype) then Inherited key else Missing
  end.

(** [!!p] for a property read: functions and objects are truthy,
    [undefined] is not. *)
Definition truthy_property (p : property) : bool :=
  match p with
  | Own v => truthy v
  | Inherited _ => true
  | Missing => false
  end.

(** ** POST /nowplaying *)

Record nowplaying_request := NowPlayingRequest {
  req_artist_id : value;
  req_artist_name : value
}.

Inductive nowplaying_body :=
  | NowPlayingError (error : string)
  | NowPlayingOk (np : now_playing).

Definition post_nowplaying (now : Z) (b : nowplaying_request) (st : state)
  : response nowplaying_body * state :=
  if negb (truthy (req_artist_id b))
  then (Response 400 (NowPlayingError "artist_id required"), st)
  else
    let np := {| artist_id := req_artist_id b;
                 artist_name := js_or (req_artist_name b) (req_artist_id b);
                 ts := now |} in
    (Response 200 (NowPlayingOk np),
     {| nowPlaying := np; tokenStore := tokenStore st |}).

(** ** GET /offer/active *)

(** The fields of a catalog product that decide whether there is an offer.
    The display fields of the snapshot (sku, name, description, price,
    image) are rendered from the product alone, after the token has been
    stored, and are left out; the one of them that can throw, the
    description of line 182, is [description] below. *)
Record wc_product := WcProduct {
  prod_id : value;
  prod_type : value;
  prod_stock_status : value
}.

Record artist_snapshot := ArtistSnapshot { a_id : value; a_name : value }.

Record product_snapshot := ProductSnapshot {
  p_id : value;
  buyUrl : string;
  shortUrl : string;
  qrPng : string
}.

Record offer_body := OfferBody {
  visible : bool;
  ttlSec : Z;
  artist : option artist_snapshot;
  product : option product_snapshot
}.

Definition no_offer (cfg : config) : response offer_body :=
  Response 200 {| visible := false; ttlSec := OFFER_TTL_SEC cfg;
                  artist := None; product := None |}.

(** Lines 152-160: [prod] after the [try], or [None] when the [catch]
    branch answered. [Some None] is [prod === undefined]. *)
Definition first_product (catalog : fetched wc_product) : option (option wc_product) :=
  match catalog with
  | FetchThrows => None
  | NotArray => Some None
  | IsArray [] => Some None
  | IsArray (p :: _) => Some (Some p)
  end.

(** Line 161 for a product that is there:
    [!prod.id || prod.type === 'variable' || prod.stock_status !== 'instock']. *)
Definition unsellable (p : wc_product) : bool :=
  negb (truthy (prod_id p))
  || bool_decide (prod_type p = VStr "variable")
  || negb (bool_decide (prod_stock_status p = VStr "instock")).

(** [token] is the draw of [crypto.randomBytes(5).toString('hex')], [now]
    the clock at line 167, [catalog] the answer of the catalog to the one
    query the handler sends (consulted only if the handler gets that far). *)
Definition offer_active (cfg : config) (now : Z) (token : string) (req : request)
    (catalog : fetched wc_product) (st : state) : response offer_body * state :=
  let artistId := artist_id (nowPlaying st) in
  if negb (truthy artistId) then (no_offer cfg, st) else
  let sku := get_property (skuMap cfg) (to_string artistId) in
  if negb (truthy_property sku) then (no_offer cfg, st) else
  match first_product catalog with
  | None => (no_offer cfg, st)
  | Some None => (no_offer cfg, st)
  | Some (Some prod) =>
    if unsellable prod then (no_offer cfg, st) else
    let store' :=
      <[ token := {| product_id := prod_id prod; tok_artist_id := artistId;
                     createdAt := now |} ]> (tokenStore st) in
    let origin := protocol req +:+ "://" +:+ host req in
    (Response 200
       {| visible := true; ttlSec := OFFER_TTL_SEC cfg;
          artist := Some {| a_id := artistId;
                            a_name := js_or (artist_name (nowPlaying st)) artistId |};
          product := Some
            {| p_id := prod_id prod;
               buyUrl := SHOP_BASE cfg +:+ "/?add-to-cart=" +:+ to_string (prod_id prod)
                         +:+ "&quantity=1";
               shortUrl := origin +:+ "/b/" +:+ token;
               qrPng := origin +:+ "/qr/" +:+ token +:+ ".png" |} |},
     {| nowPlaying := nowPlaying st; tokenStore := store' |})
  end.

(** ** GET /b/:token and GET /qr/:token.png *)

Definition dq : string := String "034"%char EmptyString.

(** The redirect target of line 195. *)
Definition cart_url (cfg : config) (rec : token_rec) : string :=
  SHOP_BASE cfg +:+ "/?add-to-cart=" +:+ to_string (product_id rec) +:+ "&quantity=1".

(** The page of line 198, around the redirect target. *)
Definition page_head : string :=
  "<!doctype html><meta http-equiv=" +:+ dq +:+ "refresh" +:+ dq
  +:+ " content=" +:+ dq +:+ "0;url=".

Definition page_tail (cfg : config) : string :=
  dq +:+ "><script>setTimeout(function(){location.replace('"
  +:+ (SHOP_BASE cfg +:+ "/checkout") +:+ "')},500)</script>".

Definition redirect_page (cfg : config) (rec : token_rec) : string :=
  page_head +:+ cart_url cfg rec +:+ page_tail cfg.

Definition get_b (cfg : config) (token : string) (st : state)
  : response string * state :=
  match tokenStore st !! token with
  | None => (Response 404 "Expired", st)
  | Some rec => (Response 200 (redirect_page cfg rec), st)
  end.

Inductive qr_body :=
  | QrText (s : string)
  | QrPng (png : list Z).

Section qr.
(** [QRCode.toBuffer(url, { type: 'png', margin: 1, width: 300 })]:
    the bytes of the image, or [None] when the promise rejects. *)
Variable QRCode_toBuffer : string -> option (list Z).

Definition get_qr (token : string) (req : request) (st : state)
  : response qr_body * state :=
  match tokenStore st !! token with
  | None => (Response 404 (QrText "Expired"), st)
  | Some _ =>
    let shortUrl := protocol req +:+ "://" +:+ host req +:+ "/b/" +:+ token in
    match QRCode_toBuffer shortUrl with
    | Some png => (Response 200 (QrPng png), st)
    | None => (Response 500 (QrText "QR error"), st)
    end
  end.
End qr.

(** ** POST /resolve/stream *)

(** [s.split('/')] *)
Fixpoint split_slash (s : string) : list string :=
  match s with
  | EmptyString => [EmptyString]
  | String c r =>
    if Ascii.eqb c "/"%char then EmptyString :: split_slash r
    else match split_slash r with
         | p :: ps => String c p :: ps
         | [] => [String c EmptyString]
         end
  end.

(** [u.pathname.split('/').filter(Boolean)] *)
Definition path_parts (pathname : string) : list string :=
  filter (fun seg => seg ≠ "") (split_slash pathname).

(** [parts.indexOf(x)], with its [-1] for "not there". *)
Fixpoint indexOf_from (parts : list string) (x : string) (i : Z) : Z :=
  match parts with
  | [] => -1
  | y :: rest => if String.eqb y x then i else indexOf_from rest x (i + 1)
  end.

Definition indexOf (parts : list string) (x : string) : Z := indexOf_from parts x 0.

(** [key.replace(/-+$/, '')]: drop the run of dashes the string ends with. *)
Fixpoint strip_dashes (s : string) : string :=
  match s with
  | EmptyString => EmptyString
  | String c r =>
    let r' := strip_dashes r in
    if Ascii.eqb c "-"%char && String.eqb r' "" then EmptyString else String c r'
  end.

(** A string of [n] dashes, and whether a string ends with one. *)
Fixpoint dashes (n : nat) : string :=
  match n with
  | O => EmptyString
  | S n' => String "-"%char (dashes n')
  end.

Fixpoint ends_with_dash (s : string) : bool :=
  match s with
  | EmptyString => false
  | String c EmptyString => Ascii.eqb c "-"%char
  | String _ r => ends_with_dash r
  end.

(** A record of the provider directory, [{ streamKey, id, ... }]:
    [streamKey] is whatever JSON the directory put there ([JScalar
    VUndefined] when the record has none).  An element of the directory
    list is [Some] record, or [None] for a [null] element; an element that
    is a number, a string, a boolean or an array has neither property and
    behaves as a record without them. *)
Record stream := Stream {
  dir_streamKey : json;
  dir_id : value
}.

Record raw_out := RawOut {
  streamsCount : option Z;
  raw_match : option stream;
  raw_error : option string
}.

(** [out = { appId, streamKey, streamId, raw }] *)
Record resolve_out := ResolveOut {
  appId : option string;
  streamKey : option string;
  streamId : value;
  raw : raw_out
}.

(** Line 77. *)
Definition out0 : resolve_out :=
  {| appId := None; streamKey := None; streamId := VNull;
     raw := {| streamsCount := None; raw_match := None; raw_error := None |} |}.

(** Lines 82-91, after [new URL] has succeeded. *)
Definition parse_parts (parts : list string) : resolve_out :=
  let idx := indexOf parts "live_cdn" in
  if (0 <=? idx) && (idx + 3 <=? Z.of_nat (length parts)) then
    {| appId := parts !! Z.to_nat (idx + 1);
       streamKey := strip_dashes <$> parts !! Z.to_nat (idx + 2);
       streamId := streamId out0;
       raw := raw out0 |}
  else out0.

(** Line 110, [(s.streamKey || '').replace(/-+$/, '')], or [None] when
    it throws: reading [streamKey] off [null], or calling [replace] on a
    truthy value that is not a string. *)
Definition directory_key (e : option stream) : option string :=
  match e with
  | None => None
  | Some s =>
    match dir_streamKey s with
    | JScalar v =>
      if truthy v then
        match v with
        | VStr k => Some (strip_dashes k)
        | _ => None
        end
      else Some (strip_dashes "")
    | _ => None
    end
  end.

(** Lines 109-112, [arr.find(...)]: the elements are tried in order, the
    first one for which the callback returns true is the result, and a
    throw in the callback ends the search at once. *)
Inductive find_result :=
  | FindThrows
  | NotFound
  | Found (s : stream).

Fixpoint find_stream (key : string) (arr : list (option stream)) : find_result :=
  match arr with
  | [] => NotFound
  | e :: rest =>
    match directory_key e, e with
    | Some k, Some s => if String.eqb k key then Found s else find_stream key rest
    | _, _ => FindThrows
    end
  end.

(** Lines 102-120: the Livepush lookup on a parsed [out].  A throw of the
    [find] callback lands in the [catch] of line 118, after line 107 has
    set [raw.streamsCount]. *)
Definition livepush_lookup (directory : fetched (option stream)) (out : resolve_out)
  : resolve_out :=
  match directory with
  | FetchThrows =>
    {| appId := appId out; streamKey := streamKey out; streamId := streamId out;
       raw := {| streamsCount := streamsCount (raw out);
                 raw_match := raw_match (raw out);
                 raw_error := Some "livepush_lookup_failed" |} |}
  | NotArray =>
    {| appId := appId out; streamKey := streamKey out; streamId := streamId out;
       raw := {| streamsCount := Some 0;
                 raw_match := raw_match (raw out);
                 raw_error := raw_error (raw out) |} |}
  | IsArray arr =>
    match find_stream (default "" (streamKey out)) arr with
    | Found found =>
      {| appId := appId out; streamKey := streamKey out;
         streamId := js_or (dir_id found) VNull;
         raw := {| streamsCount := Some (Z.of_nat (length arr));
                   raw_match := Some found;
                   raw_error := raw_error (raw out) |} |}
    | NotFound =>
      {| appId := appId out; streamKey := streamKey out; streamId := streamId out;
         raw := {| streamsCount := Some (Z.of_nat (length arr));
                   raw_match := raw_match (raw out);
                   raw_error := raw_error (raw out) |} |}
    | FindThrows =>
      {| appId := appId out; streamKey := streamKey out; streamId := streamId out;
         raw := {| streamsCount := Some (Z.of_nat (length arr));
                   raw_match := raw_match (raw out);
                   raw_error := Some "livepush_lookup_failed" |} |}
    end
  end.

Inductive resolve_body :=
  | ResolveError (error : string)
  | ResolveUnparsed (error : string) (parsed : resolve_out)
  | ResolveResult (out : resolve_out).

Section resolver.
(** [new URL(s).pathname], or [None] when the constructor throws. *)
Variable url_pathname : string -> option string.

(** The handler for a scalar [req.body.m3u8] ([VUndefined] when the body
    has none), on which the [String(...)] of line 74 cannot throw;
    [directory] is what the Livepush directory answers, consulted only
    when a token is configured. *)
Definition resolve_stream (cfg : config) (m3u8 : value)
    (directory : fetched (option stream)) : response resolve_body :=
  let m3u8 := if truthy m3u8 then to_string m3u8 else "" in
  if String.eqb m3u8 "" then Response 400 (ResolveError "m3u8 required") else
  match url_pathname m3u8 with
  | None => Response 400 (ResolveError "invalid m3u8 url")
  | Some pathname =>
    let out := parse_parts (path_parts pathname) in
    if negb (truthy_str (appId out)) || negb (truthy_str (streamKey out)) then
      Response 422 (ResolveUnparsed "could not parse appId/streamKey from m3u8" out)
    else if negb (String.eqb (LIVEPUSH_API_TOKEN cfg) "") then
      Response 200 (ResolveResult (livepush_lookup directory out))
    else Response 200 (ResolveResult out)
  end.

(** Line 74, [(req.body && req.body.m3u8) ? String(req.body.m3u8) : ''],
    for any JSON in the field; [None] when [String] throws. *)
Definition m3u8_text (m3u8 : json) : option string :=
  if json_truthy m3u8 then json_to_string m3u8 else Some EmptyString.

(** The handler for any [req.body.m3u8].  Line 74 stands before the [try]
    of line 79, so a throw there leaves the handler; from line 75 on the
    handler works on the text of line 74. *)
Definition post_resolve_stream (cfg : config) (m3u8 : json)
    (directory : fetched (option stream)) : reply resolve_body :=
  match m3u8_text m3u8 with
  | None => Throws
  | Some text => Answer (resolve_stream cfg (VStr text) directory)
  end.
End resolver.

(** ** Sample data used by the examples below *)

Definition cfg0 : config :=
  {| SHOP_BASE := "https://subamerica.net/shop";
     SHORT_TTL_MS := 1800 * 1000;
     OFFER_TTL_SEC := 25;
     LIVEPUSH_API_TOKEN := "";
     skuMap := {[ "colleenanthony" := VStr "0002" ]} |}.

Definition cfg_livepush : config :=
  {| SHOP_BASE := SHOP_BASE cfg0; SHORT_TTL_MS := SHORT_TTL_MS cfg0;
     OFFER_TTL_SEC := OFFER_TTL_SEC cfg0; LIVEPUSH_API_TOKEN := "secret";
     skuMap := skuMap cfg0 |}.

Definition req0 : request := {| protocol := "https"; host := "relay.example" |}.

(** A URL reader for the examples: everything from the first slash after
    the scheme's authority on is the path. *)
Definition sample_pathname (s : string) : option string :=
  if String.prefix "https://cdn.example" s
  then Some (String.substring 19 (String.length s - 19) s)
  else None.

Definition tok0 : token_rec :=
  {| product_id := VNum 42; tok_artist_id := VStr "colleenanthony"; createdAt := 0 |}.

Definition store0 : gmap string token_rec := {[ "a1b2c3d4e5" := tok0 ]}.

(** A directory record with a string key and a numeric id. *)
Definition dir_record (key : string) (id : Z) : option stream :=
  Some {| dir_streamKey := JScalar (VStr key); dir_id := VNum id |}.

(** ** Derived notions used in the statements *)

(** A directory element the search for [key] passes over: the callback
    reads a key off it without throwing, and that key is not [key]. *)
Definition passes_over (key : string) (e : option stream) : Prop :=
  exists k, directory_key e = Some k /\ k <> key.


(** [needle] occurs somewhere inside [hay]. *)
Definition occurs_in (needle hay : string) : Prop :=
  exists pre post, hay = pre +:+ needle +:+ post.

(** The layouts the resolver gives up on: no [live_cdn] segment; fewer than
    two segments after the first one; a key segment made of dashes only. *)
Definition unrecognized (parts : list string) : Prop :=
  "live_cdn" ∉ parts
  \/ (exists pre after,
        parts = pre ++ "live_cdn" :: after /\ ("live_cdn" ∉ pre)
        /\ (length after < 2)%nat)
  \/ (exists pre app seg rest,
        parts = pre ++ "live_cdn" :: app :: seg :: rest /\ ("live_cdn" ∉ pre)
        /\ strip_dashes seg = "").

(** Line 96, [!out.appId || !out.streamKey]. *)
Definition unparsed (out : resolve_out) : bool :=
  negb (truthy_str (appId out)) || negb (truthy_str (streamKey out)).

(** The parsed result for a path whose first [live_cdn] is followed by
    [app] and [seg]. *)
Definition parsed (app seg : string) : resolve_out :=
  {| appId := Some app; streamKey := Some (strip_dashes seg);
     streamId := VNull; raw := raw out0 |}.

(** ** Sample data, continued *)

(** A renderer for the examples: every link gets the same four bytes. *)
Definition qr0 : string -> option (list Z) := fun _ => Some [137; 80; 78; 71].

Definition st_token : state := {| nowPlaying := nowPlaying0; tokenStore := store0 |}.

(** The catalog answer used in the examples: one simple product in stock. *)
Definition prod42 : wc_product :=
  {| prod_id := VNum 42; prod_type := VStr "simple"; prod_stock_status := VStr "instock" |}.

(** ** Configuration read from the environment (lines 41-42) *)

Section env.
(** [parseInt(s, 10)]: an integer, or [None] for [NaN].  Digit strings so
    long that the result would leave the range of exact numbers are left
    out. *)
Variable parseInt : string -> option Z.




End env.

(** ** The description of the product snapshot (line 182)

    [(prod.short_description || '').replace(/<[^>]*>/g, '').slice(0, 160)].
    The characters of a [string] stand for the code units of the JavaScript
    string. *)

(** [s.replace(/<[^>]*>/g, '')]: scanning left to right, a [<] that has a
    [>] somewhere after it is dropped together with everything up to and
    including the first such [>]; any other character is kept.
    [skip_tag r] is the scan resumed after the first [>] of [r], or [None]
    when [r] has no [>]. *)
Fixpoint strip_tags (s : string) : string :=
  match s with
  | EmptyString => EmptyString
  | String c r =>
    if Ascii.eqb c "<"%char then
      match skip_tag r with
      | Some out => out
      | None => String c (strip_tags r)
      end
    else String c (strip_tags r)
  end
with skip_tag (s : string) : option string :=
  match s with
  | EmptyString => None
  | String c r => if Ascii.eqb c ">"%char then Some (strip_tags r) else skip_tag r
  end.



(** Whether a string has a [>], and whether it has a [<] with a [>]
    somewhere after it. *)
Fixpoint has_gt (s : string) : bool :=
  match s with
  | EmptyString => false
  | String c r => Ascii.eqb c ">"%char || has_gt r
  end.

Fixpoint has_tag (s : string) : bool :=
  match s with
  | EmptyString => false
  | String c r => (Ascii.eqb c "<"%char && has_gt r) || has_tag r
  end.

Fixpoint has_char (x : ascii) (s : string) : bool :=
  match s with
  | EmptyString => false
  | String c r => Ascii.eqb c x || has_char x r
  end.

(** ** [/offer/active] around its [await]

    The handler reads [nowPlaying.artist_id] and the SKU map, then awaits
    the catalog; other handlers and the sweep timer may run before it
    resumes.  [offer_start] is the part before the [await] (lines 136-153):
    [None] when it has already answered [visible: false], otherwise the
    artist id it holds on to.  [offer_finish] is the part after it (lines
    154-189), run on the state as it is by then. *)

Definition offer_start (cfg : config) (st : state) : option value :=
  let artistId := artist_id (nowPlaying st) in
  if negb (truthy artistId) then None else
  let sku := get_property (skuMap cfg) (to_string artistId) in
  if negb (truthy_property sku) then None else Some artistId.

Definition offer_finish (cfg : config) (now : Z) (token : string) (req : request)
    (catalog : fetched wc_product) (artistId : value) (st : state)
  : response offer_body * state :=
  match first_product catalog with
  | None => (no_offer cfg, st)
  | Some None => (no_offer cfg, st)
  | Some (Some prod) =>
    if unsellable prod then (no_offer cfg, st) else
    let store' :=
      <[ token := {| product_id := prod_id prod; tok_artist_id := artistId;
                     createdAt := now |} ]> (tokenStore st) in
    let origin := protocol req +:+ "://" +:+ host req in
    (Response 200
       {| visible := true; ttlSec := OFFER_TTL_SEC cfg;
          artist := Some {| a_id := artistId;
                            a_name := js_or (artist_name (nowPlaying st)) artistId |};
          product := Some
            {| p_id := prod_id prod;
               buyUrl := SHOP_BASE cfg +:+ "/?add-to-cart=" +:+ to_string (prod_id prod)
                         +:+ "&quantity=1";
               shortUrl := origin +:+ "/b/" +:+ token;
               qrPng := origin +:+ "/qr/" +:+ token +:+ ".png" |} |},
     {| nowPlaying := nowPlaying st; tokenStore := store' |})
  end.

(** ** The server as a sequence of turns

    Node runs one piece of handler code at a time, up to its next [await].
    A turn is a whole synchronous handler, one half of [/offer/active], or a
    firing of the sweep timer.  The system is the process state together
    with the [/offer/active] handlers that are waiting for the catalog, each
    with the artist id and the request it holds. *)

Inductive turn :=
  | PostNowPlaying (now : Z) (b : nowplaying_request)
  | OfferBegin (req : request)
  | OfferEnd (i : nat) (now : Z) (token : string) (catalog : fetched wc_product)
  | ReadToken (token : string)
  | SweepTimer (now : Z).

Record system := System {
  sys_state : state;
  in_flight : list (value * request)
}.

Definition system0 : system := {| sys_state := state0; in_flight := [] |}.

Definition step (cfg : config) (sys : system) (t : turn) : system :=
  match t with
  | PostNowPlaying now b =>
    {| sys_state := (post_nowplaying now b (sys_state sys)).2;
       in_flight := in_flight sys |}
  | OfferBegin req =>
    match offer_start cfg (sys_state sys) with
    | None => sys
    | Some artistId =>
      {| sys_state := sys_state sys;
         in_flight := in_flight sys ++ [(artistId, req)] |}
    end
  | OfferEnd i now token catalog =>
    match in_flight sys !! i with
    | None => sys
    | Some (artistId, req) =>
      {| sys_state :=
           (offer_finish cfg now token req catalog artistId (sys_state sys)).2;
         in_flight := delete i (in_flight sys) |}
    end
  | ReadToken token =>
    {| sys_state := (get_b cfg token (sys_state sys)).2;
       in_flight := in_flight sys |}
  | SweepTimer now =>
    {| sys_state := sweep (SHORT_TTL_MS cfg) now (sys_state sys);
       in_flight := in_flight sys |}
  end.

Definition run (cfg : config) (turns : list turn) (sys : system) : system :=
  fold_left (step cfg) turns sys.

(** The shapes the state keeps: the now-playing record is the start-up one
    or has a truthy id and a truthy name; every token record has a truthy
    product id and a truthy artist id. *)
Definition now_playing_ok (np : now_playing) : Prop :=
  np = nowPlaying0
  \/ (truthy (artist_id np) = true /\ truthy (artist_name np) = true).

Definition token_ok (rec : token_rec) : Prop :=
  truthy (product_id rec) = true /\ truthy (tok_artist_id rec) = true.

Definition system_ok (sys : system) : Prop :=
  now_playing_ok (nowPlaying (sys_state sys))
  /\ (forall tok rec, tokenStore (sys_state sys) !! tok = Some rec -> token_ok rec)
  /\ (forall p, p ∈ in_flight sys -> truthy p.1 = true).

(** A state in which an artist with a SKU is playing. *)
Definition st_playing : state :=
  {| nowPlaying := {| artist_id := VStr "colleenanthony";
                      artist_name := VStr "Colleen Anthony"; ts := 1000 |};
     tokenStore := ∅ |}.

(** * Properties *)

(** ** Strings *)

Lemma append_assoc (a b c : string) : (a +:+ b) +:+ c = a +:+ (b +:+ c).
Proof.
  induction a as [|x a IH]; [done |].
  change (String x ((a +:+ b) +:+ c) = String x (a +:+ (b +:+ c))).
  by rewrite IH.
Qed.

Lemma occurs_in_middle (pre mid post : string) : occurs_in mid (pre +:+ mid +:+ post).
Proof. by exists pre, post. Qed.

(** ** The sweep *)

Section prune_facts.
Variables ttl now : Z.

(** Deleting along a walk over [m], starting from any store [s]. *)
Lemma prune_walk_lookup (s m : gmap string token_rec) (k : string) :
  map_fold (fun tok obj store => if stale ttl now obj then delete tok store else store)
           s m !! k
  = match m !! k with
    | Some obj => if stale ttl now obj then None else s !! k
    | None => s !! k
    end.
Proof.
  revert k.
  apply (map_fold_weak_ind (fun r m' => forall k, r !! k =
    match m' !! k with
    | Some obj => if stale ttl now obj then None else s !! k
    | None => s !! k
    end)).
  - intros k. by rewrite lookup_empty.
  - intros i x m' r Hi IH k.
    destruct (decide (k = i)) as [->|Hne].
    + rewrite lookup_insert_eq. destruct (stale ttl now x).
      * by rewrite lookup_delete_eq.
      * rewrite IH, Hi. done.
    + rewrite lookup_insert_ne by done. destruct (stale ttl now x).
      * rewrite lookup_delete_ne by done. apply IH.
      * apply IH.
Qed.

(** What a lookup sees after one sweep. *)
Lemma pruneTokens_lookup (store : gmap string token_rec) (k : string) :
  pruneTokens ttl now store !! k
  = match store !! k with
    | Some obj => if stale ttl now obj then None else Some obj
    | None => None
    end.
Proof.
  unfold pruneTokens. rewrite prune_walk_lookup.
  destruct (store !! k); done.
Qed.

Lemma stale_spec (obj : token_rec) :
  stale ttl now obj = true <-> ttl < now - createdAt obj.
Proof. unfold stale. apply Z.ltb_lt. Qed.

Lemma stale_false (obj : token_rec) :
  stale ttl now obj = false <-> now - createdAt obj <= ttl.
Proof. unfold stale. rewrite Z.ltb_ge. done. Qed.
End prune_facts.

(** C6, as the code has it: one run of [pruneTokens] at clock value [now]
    removes exactly the entries whose age [now - createdAt] is strictly
    greater than the TTL; every entry whose age is at most the TTL (equal
    included) is still there and unmodified, and nothing is added. *)
Theorem pruneTokens_removes_older_than_ttl
    (ttl now : Z) (store : gmap string token_rec) :
  pruneTokens ttl now store
    = filter (fun kv => now - createdAt kv.2 <= ttl) store
  /\ forall tok,
       pruneTokens ttl now store !! tok
       = match store !! tok with
         | Some obj => if bool_decide (ttl < now - createdAt obj) then None else Some obj
         | None => None
         end.
Proof.
  split.
  - apply map_eq. intros k.
    rewrite pruneTokens_lookup, map_lookup_filter.
    destruct (store !! k) as [obj|] eqn:Hk; simpl; [|done].
    destruct (stale ttl now obj) eqn:Hs.
    + apply stale_spec in Hs. rewrite option_guard_False; [done | lia].
    + apply stale_false in Hs. by rewrite option_guard_True.
  - intros tok. rewrite pruneTokens_lookup.
    destruct (store !! tok) as [obj|]; [|done].
    unfold stale. case_bool_decide as Hd.
    + by apply Z.ltb_lt in Hd as ->.
    + apply Z.nlt_ge, Z.ltb_ge in Hd. by rewrite Hd.
Qed.

(** C6, as the claim has it, fails for an entry whose age equals the TTL:
    a token created at 0, with the TTL at 1800000 ms and the sweep run at
    1800000, has age >= TTL and is still in the store afterwards. *)
Lemma pruneTokens_keeps_age_equal_ttl :
  let ttl := SHORT_TTL_MS cfg0 in
  let now := 1800000 in
  store0 !! "a1b2c3d4e5" = Some tok0
  /\ ttl <= now - createdAt tok0
  /\ pruneTokens ttl now store0 !! "a1b2c3d4e5" = Some tok0.
Proof. vm_compute. repeat split; congruence. Qed.

(** C8: with the clock held fixed and no write in between, a second run of
    the sweep leaves the store exactly as the first run left it. *)
Theorem pruneTokens_idempotent (ttl now : Z) (st : state) :
  pruneTokens ttl now (pruneTokens ttl now (tokenStore st))
    = pruneTokens ttl now (tokenStore st)
  /\ sweep ttl now (sweep ttl now st) = sweep ttl now st.
Proof.
  assert (Hmap : forall store : gmap string token_rec,
    pruneTokens ttl now (pruneTokens ttl now store) = pruneTokens ttl now store).
  { intros store. apply map_eq. intros k.
    rewrite !pruneTokens_lookup.
    destruct (store !! k) as [obj|]; [|done].
    destruct (stale ttl now obj) eqn:Hs; [done | by rewrite Hs]. }
  split; [apply Hmap |].
  unfold sweep. simpl. by rewrite Hmap.
Qed.

(** ** Token reads *)

Lemma get_b_state (cfg : config) (tok : string) (st : state) :
  (get_b cfg tok st).2 = st.
Proof. unfold get_b. by destruct (tokenStore st !! tok). Qed.

Lemma get_qr_state (qr : string -> option (list Z)) (tok : string)
    (req : request) (st : state) :
  (get_qr qr tok req st).2 = st.
Proof.
  unfold get_qr. destruct (tokenStore st !! tok); [|done].
  by destruct (qr _).
Qed.

Lemma get_b_present (cfg : config) (tok : string) (st : state) (rec : token_rec) :
  tokenStore st !! tok = Some rec ->
  (get_b cfg tok st).1 = Response 200 (redirect_page cfg rec).
Proof. intros H. unfold get_b. by rewrite H. Qed.

Lemma get_b_absent (cfg : config) (tok : string) (st : state) :
  tokenStore st !! tok = None -> (get_b cfg tok st).1 = Response 404 "Expired".
Proof. intros H. unfold get_b. by rewrite H. Qed.

Lemma get_qr_present (qr : string -> option (list Z)) (tok : string)
    (req : request) (st : state) (rec : token_rec) :
  tokenStore st !! tok = Some rec ->
  (get_qr qr tok req st).1
  = match qr (protocol req +:+ "://" +:+ host req +:+ "/b/" +:+ tok) with
    | Some png => Response 200 (QrPng png)
    | None => Response 500 (QrText "QR error")
    end.
Proof. intros H. unfold get_qr. rewrite H. by destruct (qr _). Qed.

Lemma get_qr_absent (qr : string -> option (list Z)) (tok : string)
    (req : request) (st : state) :
  tokenStore st !! tok = None ->
  (get_qr qr tok req st).1 = Response 404 (QrText "Expired").
Proof. intros H. unfold get_qr. by rewrite H. Qed.

Lemma get_qr_present_status (qr : string -> option (list Z)) (tok : string)
    (req : request) (st : state) (rec : token_rec) :
  tokenStore st !! tok = Some rec -> status (get_qr qr tok req st).1 <> 404.
Proof.
  intros H. rewrite (get_qr_present _ _ _ _ _ H). by destruct (qr _).
Qed.

(** The page served by [/b/:token] carries the add-to-cart link of the
    record's product. *)
Lemma redirect_page_target (cfg : config) (rec : token_rec) :
  occurs_in ("add-to-cart=" +:+ to_string (product_id rec)) (redirect_page cfg rec)
  /\ occurs_in (cart_url cfg rec) (redirect_page cfg rec).
Proof.
  split.
  - unfold redirect_page, cart_url.
    exists (page_head +:+ SHOP_BASE cfg +:+ "/?"), ("&quantity=1" +:+ page_tail cfg).
    rewrite !append_assoc. reflexivity.
  - unfold redirect_page. apply occurs_in_middle.
Qed.

(** C1, as the code has it: a token read looks at nothing but whether the
    record is physically in the store.  A record that is there is served
    whatever its age; it stops resolving (404 on both read routes) once a
    sweep has run at a clock value where its age was strictly greater than
    the TTL, and it still resolves after any sweep run while its age was at
    most the TTL.  A token that is not in the store gives 404. *)
Theorem token_read_by_presence
    (cfg : config) (qr : string -> option (list Z)) (req : request)
    (tok : string) (st : state) (rec : token_rec) (now : Z) :
  tokenStore st !! tok = Some rec ->
  let ttl := SHORT_TTL_MS cfg in
  let swept := sweep ttl now st in
  (get_b cfg tok st).1 = Response 200 (redirect_page cfg rec)
  /\ status (get_qr qr tok req st).1 <> 404
  /\ (ttl < now - createdAt rec ->
        status (get_b cfg tok swept).1 = 404
        /\ status (get_qr qr tok req swept).1 = 404)
  /\ (now - createdAt rec <= ttl ->
        (get_b cfg tok swept).1 = Response 200 (redirect_page cfg rec)
        /\ status (get_qr qr tok req swept).1 <> 404)
  /\ (forall tok', tokenStore st !! tok' = None ->
        status (get_b cfg tok' st).1 = 404
        /\ status (get_qr qr tok' req st).1 = 404).
Proof.
  intros Hrec ttl swept.
  assert (Hswept : tokenStore swept !! tok
                   = if stale ttl now rec then None else Some rec).
  { unfold swept, sweep. simpl. by rewrite pruneTokens_lookup, Hrec. }
  split; [by apply get_b_present |].
  split; [by eapply get_qr_present_status |].
  split; [| split].
  - intros Hold. apply stale_spec in Hold. rewrite Hold in Hswept.
    by rewrite get_b_absent, get_qr_absent.
  - intros Hyoung. apply stale_false in Hyoung. rewrite Hyoung in Hswept.
    split; [by apply get_b_present | by eapply get_qr_present_status].
  - intros tok' Hnone. by rewrite get_b_absent, get_qr_absent.
Qed.

Lemma token_read_by_presence_witness :
  status (get_b cfg0 "a1b2c3d4e5" (sweep (SHORT_TTL_MS cfg0) 1800001 st_token)).1 = 404
  /\ (get_b cfg0 "a1b2c3d4e5" (sweep (SHORT_TTL_MS cfg0) 1799999 st_token)).1
     = Response 200 (redirect_page cfg0 tok0).
Proof.
  destruct (token_read_by_presence cfg0 qr0 req0 "a1b2c3d4e5" st_token tok0 1800001)
    as (_ & _ & Hold & _); [vm_compute; reflexivity |].
  destruct (token_read_by_presence cfg0 qr0 req0 "a1b2c3d4e5" st_token tok0 1799999)
    as (_ & _ & _ & Hyoung & _); [vm_compute; reflexivity |].
  split.
  - apply Hold. vm_compute. reflexivity.
  - apply Hyoung. vm_compute. discriminate.
Defined.

(** C1, as the claim has it, fails: the token below was created at 0 and the
    sweep timer last fired at 1800000, when its age was exactly the TTL.  A
    read one millisecond later, at age TTL + 1 and well before the next
    firing, finds the record and serves it on both routes. *)
Lemma stale_token_still_redeemed :
  let ttl := SHORT_TTL_MS cfg0 in
  let st := sweep ttl (createdAt tok0 + ttl) st_token in
  let read_at := createdAt tok0 + ttl + 1 in
  ttl <= read_at - createdAt tok0
  /\ read_at - (createdAt tok0 + ttl) < SWEEP_INTERVAL_MS
  /\ status (get_b cfg0 "a1b2c3d4e5" st).1 = 200
  /\ status (get_qr qr0 "a1b2c3d4e5" req0 st).1 = 200.
Proof. cbv zeta. repeat split; vm_compute; congruence. Qed.

(** C9: redeeming a token that is in the store, by either route, leaves the
    state (the token store included) as it was, so a second redemption right
    after gives the very same response: for [/b/:token] a 200 page whose
    redirect target contains [add-to-cart=<product_id>]. *)
Theorem redemption_leaves_store_unchanged
    (cfg : config) (qr : string -> option (list Z)) (req : request)
    (tok : string) (st : state) (rec : token_rec) :
  tokenStore st !! tok = Some rec ->
  (get_b cfg tok st).2 = st
  /\ (get_qr qr tok req st).2 = st
  /\ tokenStore (get_b cfg tok st).2 !! tok = Some rec
  /\ tokenStore (get_qr qr tok req st).2 !! tok = Some rec
  /\ (get_b cfg tok st).1 = Response 200 (redirect_page cfg rec)
  /\ get_b cfg tok (get_b cfg tok st).2 = get_b cfg tok st
  /\ get_b cfg tok (get_qr qr tok req st).2 = get_b cfg tok st
  /\ get_qr qr tok req (get_qr qr tok req st).2 = get_qr qr tok req st
  /\ get_qr qr tok req (get_b cfg tok st).2 = get_qr qr tok req st
  /\ status (get_qr qr tok req st).1 <> 404
  /\ occurs_in ("add-to-cart=" +:+ to_string (product_id rec))
               (body (get_b cfg tok (get_b cfg tok st).2).1).
Proof.
  intros Hrec. rewrite !get_b_state, !get_qr_state.
  repeat split; try done.
  - by apply get_b_present.
  - by eapply get_qr_present_status.
  - rewrite (get_b_present _ _ _ _ Hrec). simpl. apply redirect_page_target.
Qed.

Lemma redemption_leaves_store_unchanged_witness :
  (get_b cfg0 "a1b2c3d4e5" st_token).2 = st_token
  /\ get_b cfg0 "a1b2c3d4e5" (get_b cfg0 "a1b2c3d4e5" st_token).2
     = get_b cfg0 "a1b2c3d4e5" st_token
  /\ occurs_in "add-to-cart=42"
       (body (get_b cfg0 "a1b2c3d4e5" (get_b cfg0 "a1b2c3d4e5" st_token).2).1).
Proof.
  destruct (redemption_leaves_store_unchanged cfg0 qr0 req0 "a1b2c3d4e5" st_token tok0)
    as (H1 & _ & _ & _ & _ & H2 & _ & _ & _ & _ & H3); [vm_compute; reflexivity |].
  split; [exact H1 |]. split; [exact H2 | exact H3].
Defined.

(** ** Now playing and the offer *)

Lemma js_or_falsy (a b : value) : truthy a = false -> js_or a b = b.
Proof. unfold js_or. by intros ->. Qed.

Lemma truthy_not_null (v : value) : truthy v = true -> v <> VNull /\ v <> VUndefined.
Proof. by destruct v. Qed.

(** Whenever [/offer/active] answers with an artist, the name it shows is
    [nowPlaying.artist_name || artistId]. *)
Lemma offer_active_artist (cfg : config) (now : Z) (token : string) (req : request)
    (catalog : fetched wc_product) (st : state) (a : artist_snapshot) :
  artist (body (offer_active cfg now token req catalog st).1) = Some a ->
  a_id a = artist_id (nowPlaying st)
  /\ a_name a = js_or (artist_name (nowPlaying st)) (artist_id (nowPlaying st)).
Proof.
  unfold offer_active.
  destruct (negb (truthy (artist_id (nowPlaying st)))); [done |].
  destruct (negb (truthy_property _)); [done |].
  destruct (first_product catalog) as [[prod|]|]; try done.
  destruct (unsellable prod); [done |].
  simpl. by intros [= <-].
Qed.

(** The answers of [/offer/active] without an offer: each of these
    conditions sends the handler down a branch that replies
    [{ overlay: { visible: false, ttlSec } }] with status 200 and leaves the
    state alone.  The second condition is about the property read
    [skuMap[artistId]] itself, inherited members included. *)
Lemma offer_active_degrades (cfg : config) (now : Z) (token : string) (req : request)
    (catalog : fetched wc_product) (st : state) :
  truthy (artist_id (nowPlaying st)) = false
  \/ truthy_property
       (get_property (skuMap cfg) (to_string (artist_id (nowPlaying st)))) = false
  \/ catalog = FetchThrows
  \/ catalog = NotArray
  \/ catalog = IsArray []
  \/ (exists p rest, catalog = IsArray (p :: rest)
        /\ (truthy (prod_id p) = false
            \/ prod_type p = VStr "variable"
            \/ prod_stock_status p <> VStr "instock")) ->
  offer_active cfg now token req catalog st = (no_offer cfg, st).
Proof.
  unfold offer_active.
  intros [H | [H | H]].
  - by rewrite H.
  - destruct (negb (truthy _)); [done |]. by rewrite H.
  - destruct (negb (truthy _)); [done |].
    destruct (negb (truthy_property _)); [done |].
    destruct H as [-> | [-> | [-> | (p & rest & -> & Hp)]]]; try done.
    simpl. unfold unsellable.
    destruct Hp as [Hp | [Hp | Hp]].
    + by rewrite Hp.
    + rewrite (bool_decide_eq_true_2 _ Hp). by rewrite orb_true_r.
    + rewrite (bool_decide_eq_false_2 _ Hp). by rewrite orb_true_r.
Qed.

(** The own-property part of the second condition: an artist that is no key
    of sku_map.json and does not carry the name of a member of
    [Object.prototype] gets no offer. *)
Lemma offer_active_unmapped_artist (cfg : config) (now : Z) (token : string)
    (req : request) (catalog : fetched wc_product) (st : state) :
  skuMap cfg !! to_string (artist_id (nowPlaying st)) = None ->
  to_string (artist_id (nowPlaying st)) ∉ Object_prototype ->
  offer_active cfg now token req catalog st = (no_offer cfg, st).
Proof.
  intros Hmap Hproto. apply offer_active_degrades. right. left.
  unfold get_property. rewrite Hmap.
  by rewrite (bool_decide_eq_false_2 _ Hproto).
Qed.

(** The converse: an offer is made exactly when every guard is passed. *)
Lemma offer_active_visible_iff (cfg : config) (now : Z) (token : string)
    (req : request) (catalog : fetched wc_product) (st : state) :
  visible (body (offer_active cfg now token req catalog st).1) = true <->
  truthy (artist_id (nowPlaying st)) = true
  /\ truthy_property
       (get_property (skuMap cfg) (to_string (artist_id (nowPlaying st)))) = true
  /\ exists p rest, catalog = IsArray (p :: rest) /\ unsellable p = false.
Proof.
  unfold offer_active.
  destruct (truthy (artist_id (nowPlaying st))); simpl; [| by split; [| intros [? _]]].
  destruct (truthy_property _); simpl; [| by split; [| intros (_ & ? & _)]].
  destruct catalog as [| |[|p rest]]; simpl;
    try (split; [done | by intros (_ & _ & ? & ? & ? & _)]).
  destruct (unsellable p) eqn:Hp; simpl.
  - split; [done |]. intros (_ & _ & p' & rest' & [= <- _] & Hp'). congruence.
  - split; [| done]. intros _. repeat split. by exists p, rest.
Qed.

(** C2 at an artist id that names a member of [Object.prototype]:
    ["constructor"] is no key of the SKU map, yet [skuMap["constructor"]] is
    the inherited [Object] function, which is truthy; the handler goes on to
    query the catalog and, when that answers with a sellable product, mints
    a token and replies [visible: true]. *)
Theorem offer_active_inherited_key_offers :
  let b := {| req_artist_id := VStr "constructor"; req_artist_name := VUndefined |} in
  let st := (post_nowplaying 1000 b state0).2 in
  let r := offer_active cfg0 2000 "a1b2c3d4e5" req0 (IsArray [prod42]) st in
  skuMap cfg0 !! "constructor" = None
  /\ status r.1 = 200
  /\ visible (body r.1) = true
  /\ tokenStore r.2 !! "a1b2c3d4e5"
     = Some {| product_id := VNum 42; tok_artist_id := VStr "constructor";
               createdAt := 2000 |}.
Proof. cbv zeta. repeat split; vm_compute; reflexivity. Qed.

(** C10: a [/nowplaying] post with a truthy [artist_id] and an absent or
    otherwise falsy [artist_name] stores the artist id as the name, so the
    stored name is never null, and an offer built from that state (or from
    any state whose stored name is falsy) shows the artist id as the name. *)
Theorem nowplaying_name_defaults_to_id
    (now : Z) (b : nowplaying_request) (st : state) :
  truthy (req_artist_id b) = true ->
  truthy (req_artist_name b) = false ->
  let r := post_nowplaying now b st in
  let np := {| artist_id := req_artist_id b; artist_name := req_artist_id b;
               ts := now |} in
  r.1 = Response 200 (NowPlayingOk np)
  /\ nowPlaying r.2 = np
  /\ artist_name (nowPlaying r.2) <> VNull
  /\ artist_name (nowPlaying r.2) <> VUndefined
  /\ (forall cfg now' token req catalog a,
        artist (body (offer_active cfg now' token req catalog r.2).1) = Some a ->
        a_id a = req_artist_id b /\ a_name a = req_artist_id b)
  /\ (forall cfg now' token req catalog st' a,
        truthy (artist_name (nowPlaying st')) = false ->
        artist (body (offer_active cfg now' token req catalog st').1) = Some a ->
        a_name a = artist_id (nowPlaying st')).
Proof.
  intros Hid Hname r np.
  assert (Hr : r = (Response 200 (NowPlayingOk np),
                    {| nowPlaying := np; tokenStore := tokenStore st |})).
  { unfold r, post_nowplaying, np. rewrite Hid. simpl.
    by rewrite (js_or_falsy _ _ Hname). }
  rewrite Hr. simpl.
  destruct (truthy_not_null _ Hid) as [Hnull Hundef].
  repeat split; try done.
  - apply offer_active_artist in H. by destruct H.
  - apply offer_active_artist in H as [_ ->]. simpl.
    unfold js_or. by destruct (truthy _).
  - intros cfg now' token req catalog st' a Hfalsy Ha.
    apply offer_active_artist in Ha as [_ ->]. by apply js_or_falsy.
Qed.

Lemma nowplaying_name_defaults_to_id_witness :
  let b := {| req_artist_id := VStr "colleenanthony"; req_artist_name := VUndefined |} in
  let st := (post_nowplaying 1000 b state0).2 in
  artist_name (nowPlaying st) = VStr "colleenanthony"
  /\ artist (body (offer_active cfg0 2000 "a1b2c3d4e5" req0 (IsArray [prod42]) st).1)
     = Some {| a_id := VStr "colleenanthony"; a_name := VStr "colleenanthony" |}.
Proof.
  cbv zeta.
  destruct (nowplaying_name_defaults_to_id 1000
              {| req_artist_id := VStr "colleenanthony"; req_artist_name := VUndefined |}
              state0)
    as (_ & Hnp & _ & _ & Hoffer & _); [reflexivity | reflexivity |].
  split.
  - by rewrite Hnp.
  - destruct (artist _) as [a|] eqn:Ha.
    + destruct (Hoffer cfg0 2000 "a1b2c3d4e5" req0 (IsArray [prod42]) a Ha) as [H1 H2].
      destruct a as [i n]. simpl in H1, H2. by rewrite H1, H2.
    + vm_compute in Ha. discriminate Ha.
Defined.

(** ** The resolver: strings and segments *)

Lemma append_cons (c : ascii) (a b : string) : String c a +:+ b = String c (a +:+ b).
Proof. reflexivity. Qed.

Lemma strip_dashes_cons (c : ascii) (r : string) :
  strip_dashes (String c r)
  = if Ascii.eqb c "-"%char && String.eqb (strip_dashes r) ""
    then EmptyString else String c (strip_dashes r).
Proof. reflexivity. Qed.

Lemma strip_dashes_dashes (n : nat) : strip_dashes (dashes n) = "".
Proof.
  induction n as [|n IH]; [done |].
  change (dashes (S n)) with (String "-"%char (dashes n)).
  rewrite strip_dashes_cons, IH. reflexivity.
Qed.

(** Dashes appended to a key do not show in the stripped key. *)
Lemma strip_dashes_app (k : string) (n : nat) :
  strip_dashes (k +:+ dashes n) = strip_dashes k.
Proof.
  induction k as [|c k IH].
  - apply strip_dashes_dashes.
  - rewrite append_cons, !strip_dashes_cons, IH. done.
Qed.

(** A key that does not end with a dash is left as it is. *)
Lemma strip_dashes_id (k : string) : ends_with_dash k = false -> strip_dashes k = k.
Proof.
  induction k as [|c k IH]; [done |].
  intros Hend. rewrite strip_dashes_cons.
  destruct k as [|c' k'].
  - simpl in Hend. rewrite Hend. done.
  - rewrite IH by exact Hend.
    replace (String.eqb (String c' k') "") with false by done.
    by rewrite andb_false_r.
Qed.

(** What is left after stripping never ends with a dash. *)
Lemma strip_dashes_no_trailing (s : string) : ends_with_dash (strip_dashes s) = false.
Proof.
  induction s as [|c s IH]; [done |].
  rewrite strip_dashes_cons.
  destruct (Ascii.eqb c "-"%char) eqn:Hc; simpl.
  - destruct (strip_dashes s) as [|c' s'] eqn:Hs; [done |].
    change (ends_with_dash (String c (String c' s'))) with (ends_with_dash (String c' s')).
    exact IH.
  - destruct (strip_dashes s) as [|c' s'] eqn:Hs; [by simpl |].
    change (ends_with_dash (String c (String c' s'))) with (ends_with_dash (String c' s')).
    exact IH.
Qed.

Lemma strip_dashes_idempotent (s : string) :
  strip_dashes (strip_dashes s) = strip_dashes s.
Proof. apply strip_dashes_id, strip_dashes_no_trailing. Qed.

(** Every segment kept by [filter(Boolean)] is non-empty. *)
Lemma path_parts_nonempty (pathname seg : string) :
  seg ∈ path_parts pathname -> seg <> "".
Proof. unfold path_parts. rewrite list_elem_of_filter. by intros [? _]. Qed.

Lemma eqb_string_false (a b : string) : a <> b -> String.eqb a b = false.
Proof. by intros; apply String.eqb_neq. Qed.

Lemma indexOf_from_absent (parts : list string) (x : string) (i : Z) :
  x ∉ parts -> indexOf_from parts x i = -1.
Proof.
  revert i. induction parts as [|y rest IH]; intros i Hx; [done |].
  simpl. apply not_elem_of_cons in Hx as [Hne Hrest].
  rewrite eqb_string_false by done. by apply IH.
Qed.

(** [indexOf] stops at the first occurrence. *)
Lemma indexOf_from_first (pre rest : list string) (x : string) (i : Z) :
  x ∉ pre -> indexOf_from (pre ++ x :: rest) x i = i + Z.of_nat (length pre).
Proof.
  revert i. induction pre as [|y pre IH]; intros i Hx; simpl.
  - rewrite String.eqb_refl. lia.
  - apply not_elem_of_cons in Hx as [Hne Hpre].
    rewrite eqb_string_false by done. rewrite IH by done. lia.
Qed.

(** A list either lacks [x] or splits at the first [x]. *)
Lemma first_occurrence (parts : list string) (x : string) :
  x ∉ parts \/ exists pre rest, parts = pre ++ x :: rest /\ x ∉ pre.
Proof.
  induction parts as [|y parts IH].
  - left. apply not_elem_of_nil.
  - destruct (decide (y = x)) as [->|Hne].
    + right. exists [], parts. split; [done | apply not_elem_of_nil].
    + destruct IH as [Habs | (pre & rest & -> & Hpre)].
      * left. apply not_elem_of_cons. by split.
      * right. exists (y :: pre), rest. split; [done |].
        apply not_elem_of_cons. by split.
Qed.

(** The split at the first occurrence is unique. *)
Lemma first_occurrence_unique (x : string) (pre1 rest1 pre2 rest2 : list string) :
  pre1 ++ x :: rest1 = pre2 ++ x :: rest2 -> x ∉ pre1 -> x ∉ pre2 ->
  pre1 = pre2 /\ rest1 = rest2.
Proof.
  revert pre2. induction pre1 as [|a pre1 IH]; intros [|b pre2] Heq H1 H2; simpl in Heq.
  - by injection Heq.
  - injection Heq as -> _. exfalso. apply H2. by left.
  - injection Heq as -> _. exfalso. apply H1. by left.
  - injection Heq as -> Heq.
    apply not_elem_of_cons in H1 as [_ H1]. apply not_elem_of_cons in H2 as [_ H2].
    destruct (IH _ Heq H1 H2) as [-> ->]. done.
Qed.

(** The three outcomes of lines 84-91. *)
Lemma parse_parts_no_marker (parts : list string) :
  "live_cdn" ∉ parts -> parse_parts parts = out0.
Proof.
  intros H. unfold parse_parts, indexOf. by rewrite indexOf_from_absent.
Qed.

Lemma parse_parts_short (pre after : list string) :
  "live_cdn" ∉ pre -> (length after < 2)%nat ->
  parse_parts (pre ++ "live_cdn" :: after) = out0.
Proof.
  intros Hpre Hlen. unfold parse_parts, indexOf.
  rewrite indexOf_from_first by done.
  rewrite length_app. simpl length.
  replace (0 + Z.of_nat (length pre) + 3 <=? Z.of_nat (length pre + S (length after)))
    with false by (symmetry; apply Z.leb_gt; lia).
  by rewrite andb_false_r.
Qed.

Lemma parse_parts_marker (pre rest : list string) (app seg : string) :
  "live_cdn" ∉ pre ->
  parse_parts (pre ++ "live_cdn" :: app :: seg :: rest)
  = {| appId := Some app; streamKey := Some (strip_dashes seg);
       streamId := VNull; raw := raw out0 |}.
Proof.
  intros Hpre. unfold parse_parts, indexOf.
  rewrite indexOf_from_first by done.
  rewrite length_app. simpl length.
  replace (0 <=? 0 + Z.of_nat (length pre)) with true
    by (symmetry; apply Z.leb_le; lia).
  replace (0 + Z.of_nat (length pre) + 3
           <=? Z.of_nat (length pre + S (S (S (length rest)))))
    with true by (symmetry; apply Z.leb_le; lia).
  simpl andb. cbv iota.
  replace (Z.to_nat (0 + Z.of_nat (length pre) + 1)) with (length pre + 1)%nat by lia.
  replace (Z.to_nat (0 + Z.of_nat (length pre) + 2)) with (length pre + 2)%nat by lia.
  rewrite !lookup_app_r by lia.
  replace (length pre + 1 - length pre)%nat with 1%nat by lia.
  replace (length pre + 2 - length pre)%nat with 2%nat by lia.
  reflexivity.
Qed.

(** ** The resolver: status codes *)

Lemma pretty_N_go_nonempty (x : N) (s : string) : s <> "" -> pretty_N_go x s <> "".
Proof.
  revert s. induction (N.lt_wf_0 x) as [x _ IH]. intros s Hs.
  destruct (decide (x = 0)%N) as [->|Hx].
  - by rewrite pretty_N_go_0.
  - rewrite pretty_N_go_step by lia. apply IH; [apply N.div_lt; lia | done].
Qed.

Lemma pretty_positive_nonempty (p : positive) : pretty p <> "".
Proof.
  unfold pretty, pretty_positive, pretty, pretty_N.
  rewrite decide_False by done.
  rewrite pretty_N_go_step by lia. by apply pretty_N_go_nonempty.
Qed.

(** [String(v)] of a truthy scalar is never the empty string, so line 75
    answers 400 exactly for a falsy (absent, null, empty, zero, false)
    [m3u8] field. *)
Lemma to_string_truthy (v : value) : truthy v = true -> to_string v <> "".
Proof.
  destruct v as [| |b|n|s]; simpl; try done.
  - by intros ->.
  - intros _. destruct n as [|p|p]; [done | apply pretty_positive_nonempty |].
    unfold pretty, pretty_Z. done.
  - intros H Hs. subst s. done.
Qed.

Lemma truthy_str_Some (s : string) : truthy_str (Some s) = true <-> s <> "".
Proof.
  simpl. rewrite negb_true_iff. apply String.eqb_neq.
Qed.

Lemma unparsed_iff_unrecognized (parts : list string) :
  (forall seg, seg ∈ parts -> seg <> "") ->
  unparsed (parse_parts parts) = true <-> unrecognized parts.
Proof.
  intros Hne.
  destruct (first_occurrence parts "live_cdn") as [Habs | (pre & after & -> & Hpre)].
  { rewrite parse_parts_no_marker by done. split; [by left | done]. }
  destruct after as [|app [|seg rest]].
  - rewrite parse_parts_short by first [done | simpl; lia].
    split; [| done]. intros _. right. left. exists pre, []. simpl. auto with lia.
  - rewrite parse_parts_short by first [done | simpl; lia].
    split; [| done]. intros _. right. left. exists pre, [app]. simpl. auto with lia.
  - rewrite parse_parts_marker by done. unfold unparsed. simpl appId. simpl streamKey.
    assert (Happ : truthy_str (Some app) = true).
    { apply truthy_str_Some, Hne. rewrite elem_of_app. right.
      apply elem_of_cons. right. by left. }
    rewrite Happ. simpl negb. rewrite orb_false_l, negb_true_iff.
    split.
    + intros Hkey. right. right. exists pre, app, seg, rest.
      split; [done |]. split; [done |].
      destruct (decide (strip_dashes seg = "")) as [|Hs]; [done |].
      apply (proj2 (truthy_str_Some _)) in Hs. simpl in Hs. congruence.
    + intros [Habs | [(pre' & after' & Heq & Hpre' & Hlen)
                     | (pre' & app' & seg' & rest' & Heq & Hpre' & Hkey)]].
      * exfalso. apply Habs. rewrite elem_of_app. right. by left.
      * destruct (first_occurrence_unique _ _ _ _ _ Heq Hpre Hpre') as [_ <-].
        simpl in Hlen. lia.
      * destruct (first_occurrence_unique _ _ _ _ _ Heq Hpre Hpre') as [_ [= _ <- _]].
        rewrite Hkey. done.
Qed.

Section resolver_facts.
Variable url_pathname : string -> option string.
Variable cfg : config.

(** The response to a non-empty string that [new URL] accepts. *)
Lemma resolve_stream_url (m3u8 : value) (p : string) (directory : fetched (option stream)) :
  truthy m3u8 = true ->
  url_pathname (to_string m3u8) = Some p ->
  resolve_stream url_pathname cfg m3u8 directory
  = let out := parse_parts (path_parts p) in
    if unparsed out then
      Response 422 (ResolveUnparsed "could not parse appId/streamKey from m3u8" out)
    else if negb (String.eqb (LIVEPUSH_API_TOKEN cfg) "") then
      Response 200 (ResolveResult (livepush_lookup directory out))
    else Response 200 (ResolveResult out).
Proof.
  intros Ht Hp. unfold resolve_stream. rewrite Ht.
  rewrite (eqb_string_false _ _ (to_string_truthy _ Ht)), Hp. reflexivity.
Qed.

(** The status codes for a scalar [m3u8] field: 400 exactly when the field
    is falsy or [new URL] rejects its text, and 422 - a different body,
    carrying the partial parse - exactly when the URL is accepted but its
    segments lack [live_cdn], or have fewer than two segments after it, or
    have a key that is empty once stripped; otherwise 200. *)
Lemma resolve_stream_status (m3u8 : value) (directory : fetched (option stream)) :
  let r := resolve_stream url_pathname cfg m3u8 directory in
  (status r = 400 <->
     truthy m3u8 = false \/ url_pathname (to_string m3u8) = None)
  /\ (status r = 422 <->
        truthy m3u8 = true
        /\ exists p, url_pathname (to_string m3u8) = Some p
                     /\ unrecognized (path_parts p))
  /\ (status r = 400 -> exists e, body r = ResolveError e)
  /\ (status r = 422 ->
        exists e p, url_pathname (to_string m3u8) = Some p
                    /\ body r = ResolveUnparsed e (parse_parts (path_parts p)))
  /\ (status r = 400 \/ status r = 422 \/ status r = 200).
Proof.
  intros r. subst r.
  destruct (truthy m3u8) eqn:Ht.
  2:{ unfold resolve_stream. rewrite Ht. simpl.
      split; [| split; [| split; [| split]]].
      - split; [by left | done].
      - split; [done | by intros [? _]].
      - intros _. eauto.
      - done.
      - by left. }
  destruct (url_pathname (to_string m3u8)) as [p|] eqn:Hp.
  2:{ unfold resolve_stream. rewrite Ht.
      rewrite (eqb_string_false _ _ (to_string_truthy _ Ht)), Hp. simpl.
      split; [| split; [| split; [| split]]].
      - split; [by right | done].
      - split; [done | by intros (_ & ? & ? & _)].
      - intros _. eauto.
      - done.
      - by left. }
  rewrite (resolve_stream_url _ _ _ Ht Hp). cbv zeta.
  pose proof (unparsed_iff_unrecognized (path_parts p)
                (path_parts_nonempty p)) as Hiff.
  destruct (unparsed (parse_parts (path_parts p))) eqn:Hu.
  - simpl. split; [| split; [| split; [| split]]].
    + split; [done | by intros [? | ?]].
    + split; [| done]. intros _. split; [done |].
      exists p. split; [done |]. by apply Hiff.
    + done.
    + intros _. eauto.
    + right. by left.
  - assert (Hrec : ~ unrecognized (path_parts p)).
    { intros Hrec. apply Hiff in Hrec. done. }
    assert (Hok : forall out, status (Response 200 (ResolveResult out)) = 200) by done.
    destruct (negb (String.eqb (LIVEPUSH_API_TOKEN cfg) ""));
      rewrite Hok;
      (split; [| split; [| split; [| split]]];
       [ split; [done | by intros [? | ?]]
       | split; [done | intros (_ & p' & [= <-] & Hrec'); by apply Hrec in Hrec']
       | done
       | done
       | by right; right ]).
Qed.
End resolver_facts.

(** The same for any JSON in the field, whenever the conversion of line 74
    succeeds: the handler answers, and the status codes are those of the
    text the conversion gave. *)
Lemma post_resolve_stream_status
    (url_pathname : string -> option string) (cfg : config)
    (m3u8 : json) (text : string) (directory : fetched (option stream)) :
  m3u8_text m3u8 = Some text ->
  exists r,
    post_resolve_stream url_pathname cfg m3u8 directory = Answer r
    /\ (status r = 400 <-> text = "" \/ url_pathname text = None)
    /\ (status r = 422 <->
          text <> "" /\ exists p, url_pathname text = Some p
                                  /\ unrecognized (path_parts p))
    /\ (status r = 400 \/ status r = 422 \/ status r = 200).
Proof.
  intros Htext. unfold post_resolve_stream. rewrite Htext.
  eexists. split; [reflexivity |].
  destruct (resolve_stream_status url_pathname cfg (VStr text) directory)
    as (H400 & H422 & _ & _ & Hall).
  assert (Ht : truthy (VStr text) = false <-> text = "").
  { simpl. rewrite negb_false_iff. apply String.eqb_eq. }
  assert (Ht' : truthy (VStr text) = true <-> text <> "").
  { simpl. rewrite negb_true_iff. apply String.eqb_neq. }
  simpl to_string in *.
  split; [by rewrite H400, Ht |].
  split; [by rewrite H422, Ht' | exact Hall].
Qed.

Lemma post_resolve_stream_scalar
    (url_pathname : string -> option string) (cfg : config)
    (m3u8 : value) (directory : fetched (option stream)) :
  post_resolve_stream url_pathname cfg (JScalar m3u8) directory
  = Answer (resolve_stream url_pathname cfg m3u8 directory).
Proof.
  unfold post_resolve_stream, m3u8_text. simpl json_truthy.
  destruct (truthy m3u8) eqn:Ht; simpl json_to_string.
  - f_equal. unfold resolve_stream. rewrite Ht.
    change (truthy (VStr (to_string m3u8)))
      with (negb (String.eqb (to_string m3u8) "")).
    rewrite (eqb_string_false _ _ (to_string_truthy _ Ht)).
    cbn [negb to_string].
    rewrite (eqb_string_false _ _ (to_string_truthy _ Ht)). reflexivity.
  - f_equal. unfold resolve_stream. rewrite Ht. reflexivity.
Qed.

(** C7 at a field on which [String(...)] throws: an object with an own
    [toString] property is truthy, so line 74 converts it, and the
    conversion throws before the [try] of line 79 is entered.  The handler
    leaves with the TypeError: it answers neither 400 nor 422 nor anything
    else, whatever the URL reader, the configuration and the directory. *)
Theorem post_resolve_stream_object_throws
    (url_pathname : string -> option string) (cfg : config)
    (directory : fetched (option stream)) :
  json_truthy (JObj [("toString", JScalar (VNum 1))]) = true
  /\ post_resolve_stream url_pathname cfg
       (JObj [("toString", JScalar (VNum 1))]) directory
     = Throws.
Proof. split; reflexivity. Qed.

(** ** The resolver: what is parsed *)

Lemma livepush_lookup_keeps_parse (directory : fetched (option stream)) (out : resolve_out) :
  appId (livepush_lookup directory out) = appId out
  /\ streamKey (livepush_lookup directory out) = streamKey out.
Proof.
  unfold livepush_lookup. destruct directory as [| |arr]; try done.
  by destruct (find_stream _ arr).
Qed.

Lemma unparsed_parsed (app seg : string) :
  app <> "" -> unparsed (parsed app seg) = String.eqb (strip_dashes seg) "".
Proof.
  intros Happ. unfold unparsed, parsed. simpl.
  rewrite (eqb_string_false _ _ Happ). simpl. apply negb_involutive.
Qed.

(** C3, as the code has it: for a URL that [new URL] accepts and whose
    segments contain [live_cdn] followed by at least two segments, the
    parse sets the application id to the segment right after the first
    [live_cdn] and the stream key to the segment after that with its
    trailing dashes stripped.  When that stripped key is non-empty the
    handler answers 200 with the two, whatever the directory lookup does;
    when the key segment is all dashes it answers 422, with the two in the
    partial parse. *)
Theorem resolve_stream_parses
    (url_pathname : string -> option string) (cfg : config)
    (url p : string) (pre rest : list string) (app seg : string)
    (directory : fetched (option stream)) :
  url <> "" ->
  url_pathname url = Some p ->
  path_parts p = pre ++ "live_cdn" :: app :: seg :: rest ->
  "live_cdn" ∉ pre ->
  let r := resolve_stream url_pathname cfg (VStr url) directory in
  parse_parts (path_parts p) = parsed app seg
  /\ (strip_dashes seg <> "" ->
        exists out, r = Response 200 (ResolveResult out)
                    /\ appId out = Some app
                    /\ streamKey out = Some (strip_dashes seg)
                    /\ forall key n, seg = key +:+ dashes n ->
                                     ends_with_dash key = false ->
                                     streamKey out = Some key)
  /\ (strip_dashes seg = "" ->
        r = Response 422
              (ResolveUnparsed "could not parse appId/streamKey from m3u8"
                               (parsed app seg))).
Proof.
  intros Hurl Hp Hparts Hpre r.
  assert (Ht : truthy (VStr url) = true).
  { simpl. by rewrite eqb_string_false. }
  assert (Hparse : parse_parts (path_parts p) = parsed app seg).
  { rewrite Hparts. by apply parse_parts_marker. }
  assert (Happ : app <> "").
  { apply (path_parts_nonempty p). rewrite Hparts, elem_of_app. right.
    apply elem_of_cons. right. by left. }
  unfold r. rewrite (resolve_stream_url _ _ _ _ _ Ht Hp). cbv zeta.
  rewrite Hparse, (unparsed_parsed _ _ Happ).
  split; [done |]. split.
  - intros Hkey. rewrite (eqb_string_false _ _ Hkey).
    assert (Hstrip : forall key n, seg = key +:+ dashes n ->
              ends_with_dash key = false -> Some (strip_dashes seg) = Some key).
    { intros key n -> Hend. by rewrite strip_dashes_app, strip_dashes_id. }
    destruct (negb (String.eqb (LIVEPUSH_API_TOKEN cfg) "")).
    + eexists. split; [reflexivity |].
      destruct (livepush_lookup_keeps_parse directory (parsed app seg)) as [-> ->].
      done.
    + eexists. split; [reflexivity |]. done.
  - intros Hkey. rewrite Hkey. reflexivity.
Qed.

Lemma resolve_stream_parses_witness :
  exists out,
    resolve_stream sample_pathname cfg_livepush
      (VStr "https://cdn.example/live_cdn/app/abc--/index.m3u8") FetchThrows
    = Response 200 (ResolveResult out)
    /\ appId out = Some "app" /\ streamKey out = Some "abc".
Proof.
  destruct (resolve_stream_parses sample_pathname cfg_livepush
              "https://cdn.example/live_cdn/app/abc--/index.m3u8"
              "/live_cdn/app/abc--/index.m3u8" [] ["index.m3u8"] "app" "abc--"
              FetchThrows)
    as (_ & Hok & _); [done | reflexivity | reflexivity | apply not_elem_of_nil |].
  destruct Hok as (out & Hr & Happ & _ & Hkey); [vm_compute; discriminate |].
  exists out. split; [exact Hr |]. split; [exact Happ |].
  apply (Hkey "abc" 2%nat); reflexivity.
Defined.

(** C3, as the claim has it, fails when the key segment consists of dashes:
    [live_cdn] is there with three segments after it, and the handler
    answers 422 instead of returning an application id and a stream key. *)
Lemma resolve_stream_all_dash_key :
  let url := "https://cdn.example/live_cdn/app/--/index.m3u8" in
  sample_pathname url = Some "/live_cdn/app/--/index.m3u8"
  /\ path_parts "/live_cdn/app/--/index.m3u8" = ["live_cdn"; "app"; "--"; "index.m3u8"]
  /\ resolve_stream sample_pathname cfg0 (VStr url) NotArray
     = Response 422
         (ResolveUnparsed "could not parse appId/streamKey from m3u8"
            {| appId := Some "app"; streamKey := Some ""; streamId := VNull;
               raw := raw out0 |}).
Proof. cbv zeta. repeat split; vm_compute; reflexivity. Qed.

(** ** The directory matcher *)

Lemma directory_key_some (e : option stream) (k : string) :
  directory_key e = Some k -> exists s, e = Some s.
Proof. destruct e as [s|]; [by exists s | done]. Qed.

Lemma find_stream_cons (key : string) (e : option stream) (rest : list (option stream)) :
  find_stream key (e :: rest)
  = match directory_key e, e with
    | Some k, Some s => if String.eqb k key then Found s else find_stream key rest
    | _, _ => FindThrows
    end.
Proof. reflexivity. Qed.

Lemma find_stream_spec (key : string) (arr : list (option stream)) :
  match find_stream key arr with
  | Found found =>
      exists before after,
        arr = before ++ Some found :: after
        /\ directory_key (Some found) = Some key
        /\ Forall (passes_over key) before
  | NotFound => Forall (passes_over key) arr
  | FindThrows =>
      exists before e after,
        arr = before ++ e :: after
        /\ directory_key e = None
        /\ Forall (passes_over key) before
  end.
Proof.
  induction arr as [|e arr IH]; [constructor |].
  rewrite find_stream_cons.
  destruct (directory_key e) as [k|] eqn:Hk.
  2:{ exists [], e, arr. by repeat split. }
  destruct (directory_key_some _ _ Hk) as [s ->].
  destruct (String.eqb k key) eqn:Hs.
  - apply String.eqb_eq in Hs. subst k. exists [], arr. by repeat split.
  - apply String.eqb_neq in Hs.
    assert (Hpass : passes_over key (Some s)) by (by exists k).
    destruct (find_stream key arr) as [|  |found].
    + destruct IH as (before & e & after & -> & He & Hbefore).
      exists (Some s :: before), e, after.
      split; [reflexivity | split; [exact He | by constructor]].
    + by constructor.
    + destruct IH as (before & after & -> & Hfound & Hbefore).
      exists (Some s :: before), after.
      split; [reflexivity | split; [exact Hfound | by constructor]].
Qed.

(** C4, as the code has it: the matcher tries the directory in list
    order.  It returns the first record whose key equals the query key once
    its trailing dashes are stripped - plain string equality - provided the
    callback could read a key off every element before it.  When it first
    meets a [null] element, or a record whose [streamKey] is truthy and not
    a string, the callback throws and the lookup ends as a soft failure:
    [raw.error] is set, [raw.streamsCount] stays, there is no match and
    [streamId] stays null.  The handler reports a returned record as
    [raw.match] and its id as [streamId].  On the directory of the example,
    the record with id 1 wins. *)
Theorem find_stream_first_match (key : string) (arr : list (option stream)) :
  match find_stream key arr with
  | Found found =>
      exists before after,
        arr = before ++ Some found :: after
        /\ directory_key (Some found) = Some key
        /\ Forall (passes_over key) before
  | NotFound => Forall (passes_over key) arr
  | FindThrows =>
      exists before e after,
        arr = before ++ e :: after
        /\ directory_key e = None
        /\ Forall (passes_over key) before
  end
  /\ (forall found, find_stream key arr = Found found -> key <> "" ->
        exists k, dir_streamKey found = JScalar (VStr k) /\ strip_dashes k = key)
  /\ (forall app,
        let out := livepush_lookup (IsArray arr)
                     {| appId := Some app; streamKey := Some key;
                        streamId := VNull; raw := raw out0 |} in
        raw_match (raw out) = match find_stream key arr with
                              | Found found => Some found
                              | _ => None
                              end
        /\ streamId out = match find_stream key arr with
                          | Found found => js_or (dir_id found) VNull
                          | _ => VNull
                          end
        /\ streamsCount (raw out) = Some (Z.of_nat (length arr))
        /\ raw_error (raw out) = match find_stream key arr with
                                 | FindThrows => Some "livepush_lookup_failed"
                                 | _ => None
                                 end)
  /\ find_stream "abc" [dir_record "abc--" 1; dir_record "abc" 2]
     = Found {| dir_streamKey := JScalar (VStr "abc--"); dir_id := VNum 1 |}
  /\ find_stream "abc" [dir_record "ABC" 3; dir_record "abcd" 4; dir_record "ab" 5]
     = NotFound.
Proof.
  split; [apply find_stream_spec |].
  split.
  { intros found Hfound Hkey.
    pose proof (find_stream_spec key arr) as Hspec. rewrite Hfound in Hspec.
    destruct Hspec as (_ & _ & _ & Hk & _).
    unfold directory_key in Hk.
    destruct (dir_streamKey found) as [v| |]; try done.
    destruct (truthy v) eqn:Hv.
    - destruct v as [| | | |k]; try done. exists k. split; [done |]. by injection Hk.
    - injection Hk as Hk. simpl in Hk. congruence. }
  split; [| split; reflexivity].
  intros app. cbv zeta. unfold livepush_lookup. simpl streamKey. simpl default.
  by destruct (find_stream key arr).
Qed.

Lemma find_stream_first_match_witness :
  let arr := [dir_record "abc--" 1; dir_record "abc" 2] in
  let out := livepush_lookup (IsArray arr)
               {| appId := Some "app"; streamKey := Some "abc";
                  streamId := VNull; raw := raw out0 |} in
  streamId out = VNum 1
  /\ exists k, JScalar (VStr "abc--") = JScalar (VStr k) /\ strip_dashes k = "abc".
Proof.
  cbv zeta.
  destruct (find_stream_first_match "abc" [dir_record "abc--" 1; dir_record "abc" 2])
    as (_ & Hkey & Hout & _).
  split.
  - destruct (Hout "app") as (_ & Hid & _). exact Hid.
  - apply (Hkey {| dir_streamKey := JScalar (VStr "abc--"); dir_id := VNum 1 |});
      [reflexivity | discriminate].
Defined.

(** C4, as the claim has it, fails on a directory whose first record has
    a number as [streamKey]: the second record is the first whose stripped
    key equals the query, but the callback throws on the first record, so no
    record is returned and the lookup is marked as failed. *)
Lemma find_stream_stops_at_ill_typed :
  let arr := [ Some {| dir_streamKey := JScalar (VNum 123); dir_id := VNum 1 |};
               dir_record "abc" 2 ] in
  directory_key (dir_record "abc" 2) = Some "abc"
  /\ directory_key (Some {| dir_streamKey := JScalar (VNum 123); dir_id := VNum 1 |})
     = None
  /\ find_stream "abc" arr = FindThrows
  /\ livepush_lookup (IsArray arr) (parsed "app" "abc")
     = {| appId := Some "app"; streamKey := Some "abc"; streamId := VNull;
          raw := {| streamsCount := Some 2; raw_match := None;
                    raw_error := Some "livepush_lookup_failed" |} |}.
Proof. cbv zeta. repeat split; vm_compute; reflexivity. Qed.

(** ** The directory lookup failing *)

(** C5, as the code has it: for a request that parses, with a Livepush
    token configured, the handler answers 200 with the parsed application id
    and stream key and [streamId = null] both when the directory fetch
    throws and when it yields something that is no list.  Only the throw is
    recorded as [raw.error = 'livepush_lookup_failed']; a non-list leaves
    [raw.streamsCount = 0] and no error mark. *)
Theorem resolve_stream_lookup_failure
    (url_pathname : string -> option string) (cfg : config)
    (url p : string) (pre rest : list string) (app seg : string) :
  url <> "" ->
  url_pathname url = Some p ->
  path_parts p = pre ++ "live_cdn" :: app :: seg :: rest ->
  "live_cdn" ∉ pre ->
  strip_dashes seg <> "" ->
  LIVEPUSH_API_TOKEN cfg <> "" ->
  resolve_stream url_pathname cfg (VStr url) FetchThrows
  = Response 200 (ResolveResult
      {| appId := Some app; streamKey := Some (strip_dashes seg); streamId := VNull;
         raw := {| streamsCount := None; raw_match := None;
                   raw_error := Some "livepush_lookup_failed" |} |})
  /\ resolve_stream url_pathname cfg (VStr url) NotArray
     = Response 200 (ResolveResult
         {| appId := Some app; streamKey := Some (strip_dashes seg); streamId := VNull;
            raw := {| streamsCount := Some 0; raw_match := None;
                      raw_error := None |} |}).
Proof.
  intros Hurl Hp Hparts Hpre Hkey Htoken.
  assert (Ht : truthy (VStr url) = true).
  { simpl. by rewrite eqb_string_false. }
  assert (Happ : app <> "").
  { apply (path_parts_nonempty p). rewrite Hparts, elem_of_app. right.
    apply elem_of_cons. right. by left. }
  rewrite !(resolve_stream_url _ _ _ _ _ Ht Hp). cbv zeta.
  rewrite Hparts, parse_parts_marker by done.
  fold (parsed app seg).
  rewrite (unparsed_parsed _ _ Happ), (eqb_string_false _ _ Hkey).
  rewrite (eqb_string_false _ _ Htoken). simpl negb. cbv iota.
  split; reflexivity.
Qed.

Lemma resolve_stream_lookup_failure_witness :
  status (resolve_stream sample_pathname cfg_livepush
            (VStr "https://cdn.example/live_cdn/app/abc--/index.m3u8") FetchThrows) = 200.
Proof.
  destruct (resolve_stream_lookup_failure sample_pathname cfg_livepush
              "https://cdn.example/live_cdn/app/abc--/index.m3u8"
              "/live_cdn/app/abc--/index.m3u8" [] ["index.m3u8"] "app" "abc--")
    as [Hthrow _];
    [done | reflexivity | reflexivity | apply not_elem_of_nil
     | vm_compute; discriminate | vm_compute; discriminate |].
  rewrite Hthrow. reflexivity.
Defined.

(** C5, as the claim has it, fails for a directory answer that is no list:
    the response is 200 with the parse, but no soft failure is recorded. *)
Lemma resolve_stream_non_list_unmarked :
  resolve_stream sample_pathname cfg_livepush
    (VStr "https://cdn.example/live_cdn/app/abc--/index.m3u8") NotArray
  = Response 200 (ResolveResult
      {| appId := Some "app"; streamKey := Some "abc"; streamId := VNull;
         raw := {| streamsCount := Some 0; raw_match := None; raw_error := None |} |})
  /\ raw_error (raw {| appId := Some "app"; streamKey := Some "abc"; streamId := VNull;
         raw := {| streamsCount := Some 0; raw_match := None; raw_error := None |} |})
     <> Some "livepush_lookup_failed".
Proof. split; [vm_compute; reflexivity | discriminate]. Qed.

(** * Further properties of the handlers *)

(** ** Sweeps composed with sweeps and with writes *)

Lemma stale_max (ttl n1 n2 : Z) (obj : token_rec) :
  stale ttl (Z.max n1 n2) obj = stale ttl n1 obj || stale ttl n2 obj.
Proof.
  unfold stale.
  destruct (ttl <? n1 - createdAt obj) eqn:H1;
    destruct (ttl <? n2 - createdAt obj) eqn:H2; simpl;
    rewrite ?Z.ltb_lt, ?Z.ltb_ge in *; lia.
Qed.

(** X1: two runs of the sweep, at any two clock values and in either order,
    leave the store as one run at the later of the two does. *)
Theorem pruneTokens_compose (ttl n1 n2 : Z) (store : gmap string token_rec) :
  pruneTokens ttl n2 (pruneTokens ttl n1 store) = pruneTokens ttl (Z.max n1 n2) store.
Proof.
  apply map_eq. intros k. rewrite !pruneTokens_lookup.
  destruct (store !! k) as [obj|]; [| done].
  rewrite stale_max.
  destruct (stale ttl n1 obj); [done |]. simpl.
  by destruct (stale ttl n2 obj).
Qed.

(** X2: sweeping after a write is the write after the sweep when the
    written record is not stale, and the removal of that key when it is;
    the other entries are swept as without the write. *)
Theorem pruneTokens_insert (ttl now : Z) (tok : string) (rec : token_rec)
    (store : gmap string token_rec) :
  pruneTokens ttl now (<[tok := rec]> store)
  = if stale ttl now rec
    then delete tok (pruneTokens ttl now store)
    else <[tok := rec]> (pruneTokens ttl now store).
Proof.
  apply map_eq. intros k. rewrite pruneTokens_lookup.
  destruct (decide (k = tok)) as [->|Hne].
  - rewrite lookup_insert_eq. destruct (stale ttl now rec).
    + by rewrite lookup_delete_eq.
    + by rewrite lookup_insert_eq.
  - rewrite lookup_insert_ne by done.
    destruct (stale ttl now rec).
    + rewrite lookup_delete_ne by done. by rewrite pruneTokens_lookup.
    + rewrite lookup_insert_ne by done. by rewrite pruneTokens_lookup.
Qed.

(** X3: a record that is in the store right after a sweep was there before,
    unchanged, and its age at the time of the sweep was at most the TTL; read
    at any time up to the next firing of the timer (60 s later) its age is
    at most the TTL plus the sweep interval. *)
Theorem sweep_bounds_age (ttl t0 t : Z) (st : state) (tok : string) (rec : token_rec) :
  tokenStore (sweep ttl t0 st) !! tok = Some rec ->
  t - t0 <= SWEEP_INTERVAL_MS ->
  tokenStore st !! tok = Some rec
  /\ t0 - createdAt rec <= ttl
  /\ t - createdAt rec <= ttl + SWEEP_INTERVAL_MS.
Proof.
  unfold sweep. simpl. rewrite pruneTokens_lookup.
  destruct (tokenStore st !! tok) as [obj|]; [| done].
  destruct (stale ttl t0 obj) eqn:Hs; [done |].
  intros [= ->] Ht. apply stale_false in Hs.
  repeat split; [done | lia].
Qed.

Lemma sweep_bounds_age_witness :
  1859999 - createdAt tok0 <= SHORT_TTL_MS cfg0 + SWEEP_INTERVAL_MS.
Proof.
  apply (sweep_bounds_age (SHORT_TTL_MS cfg0) 1800000 1859999 st_token
           "a1b2c3d4e5" tok0); [vm_compute; reflexivity | vm_compute; discriminate].
Defined.

(** ** [/nowplaying] *)

(** X4: a post whose [artist_id] is falsy is answered 400 and changes
    nothing; no post ever touches the token store; and the last accepted
    post wins: after it, response and state are what they would be had the
    earlier post never happened. *)
Theorem post_nowplaying_last_write_wins
    (now1 now2 : Z) (b1 b2 : nowplaying_request) (st : state) :
  (truthy (req_artist_id b1) = false ->
     post_nowplaying now1 b1 st = (Response 400 (NowPlayingError "artist_id required"), st))
  /\ tokenStore (post_nowplaying now1 b1 st).2 = tokenStore st
  /\ (truthy (req_artist_id b2) = true ->
        post_nowplaying now2 b2 (post_nowplaying now1 b1 st).2
        = post_nowplaying now2 b2 st).
Proof.
  unfold post_nowplaying. repeat split.
  - by intros ->.
  - by destruct (truthy (req_artist_id b1)).
  - intros ->. simpl. by destruct (truthy (req_artist_id b1)).
Qed.

Lemma post_nowplaying_last_write_wins_witness :
  let b1 := {| req_artist_id := VStr "someone"; req_artist_name := VStr "Some One" |} in
  let b2 := {| req_artist_id := VStr "colleenanthony"; req_artist_name := VNull |} in
  post_nowplaying 2000 b2 (post_nowplaying 1000 b1 state0).2
  = post_nowplaying 2000 b2 state0.
Proof.
  cbv zeta.
  apply (post_nowplaying_last_write_wins 1000 2000
           {| req_artist_id := VStr "someone"; req_artist_name := VStr "Some One" |}
           {| req_artist_id := VStr "colleenanthony"; req_artist_name := VNull |}
           state0).
  reflexivity.
Defined.

(** ** [/offer/active] and the tokens it mints *)

Lemma offer_active_offer (cfg : config) (now : Z) (token : string) (req : request)
    (catalog : fetched wc_product) (st : state) :
  visible (body (offer_active cfg now token req catalog st).1) = true ->
  exists prod rest,
    catalog = IsArray (prod :: rest)
    /\ truthy (prod_id prod) = true
    /\ truthy (artist_id (nowPlaying st)) = true
    /\ offer_active cfg now token req catalog st
       = offer_finish cfg now token req catalog (artist_id (nowPlaying st)) st
    /\ (offer_active cfg now token req catalog st).2
       = {| nowPlaying := nowPlaying st;
            tokenStore :=
              <[ token := {| product_id := prod_id prod;
                             tok_artist_id := artist_id (nowPlaying st);
                             createdAt := now |} ]> (tokenStore st) |}
    /\ product (body (offer_active cfg now token req catalog st).1)
       = Some {| p_id := prod_id prod;
                 buyUrl := SHOP_BASE cfg +:+ "/?add-to-cart="
                           +:+ to_string (prod_id prod) +:+ "&quantity=1";
                 shortUrl := (protocol req +:+ "://" +:+ host req) +:+ "/b/" +:+ token;
                 qrPng := (protocol req +:+ "://" +:+ host req) +:+ "/qr/"
                          +:+ token +:+ ".png" |}.
Proof.
  intros Hv. apply offer_active_visible_iff in Hv
    as (Hid & Hsku & prod & rest & -> & Hsell).
  exists prod, rest. unfold offer_active, offer_finish.
  rewrite Hid, Hsku. simpl. rewrite Hsell. simpl.
  repeat split; try done.
  unfold unsellable in Hsell. apply orb_false_iff in Hsell as [Hsell _].
  apply orb_false_iff in Hsell as [Hsell _]. by apply negb_false_iff in Hsell.
Qed.

(** X5: minting and redeeming compose.  When [/offer/active] answers with an
    offer, the token it put in the links is in the store; [/b/<token>] then
    answers 200 with a page whose redirect target is the offer's [buyUrl],
    and [/qr/<token>.png], asked through the same host, renders exactly the
    offer's [shortUrl]. *)
Theorem offer_then_redeem
    (cfg : config) (qr : string -> option (list Z)) (now : Z) (token : string)
    (req : request) (catalog : fetched wc_product) (st : state) :
  let r := offer_active cfg now token req catalog st in
  visible (body r.1) = true ->
  exists p,
    product (body r.1) = Some p
    /\ shortUrl p = protocol req +:+ "://" +:+ host req +:+ "/b/" +:+ token
    /\ (get_b cfg token r.2).1
       = Response 200 (page_head +:+ buyUrl p +:+ page_tail cfg)
    /\ (get_qr qr token req r.2).1
       = match qr (shortUrl p) with
         | Some png => Response 200 (QrPng png)
         | None => Response 500 (QrText "QR error")
         end.
Proof.
  intros r Hv. unfold r in *.
  destruct (offer_active_offer _ _ _ _ _ _ Hv)
    as (prod & rest & _ & _ & _ & _ & Hst & Hp).
  eexists. split; [exact Hp |]. simpl.
  assert (Hrec : tokenStore (offer_active cfg now token req catalog st).2 !! token
                 = Some {| product_id := prod_id prod;
                           tok_artist_id := artist_id (nowPlaying st);
                           createdAt := now |}).
  { rewrite Hst. simpl. apply lookup_insert_eq. }
  split; [by rewrite !append_assoc |].
  split.
  - by rewrite (get_b_present _ _ _ _ Hrec).
  - rewrite (get_qr_present _ _ _ _ _ Hrec). by rewrite !append_assoc.
Qed.

Lemma offer_then_redeem_witness :
  let r := offer_active cfg0 2000 "a1b2c3d4e5" req0 (IsArray [prod42]) st_playing in
  exists p,
    product (body r.1) = Some p
    /\ (get_b cfg0 "a1b2c3d4e5" r.2).1
       = Response 200 (page_head +:+ buyUrl p +:+ page_tail cfg0).
Proof.
  cbv zeta.
  destruct (offer_then_redeem cfg0 qr0 2000 "a1b2c3d4e5" req0 (IsArray [prod42])
              st_playing) as (p & Hp & _ & Hb & _); [vm_compute; reflexivity |].
  exists p. split; [exact Hp | exact Hb].
Defined.



Lemma token_read_by_presence_lemma (cfg : config) (tok : string) (st : state)
    (rec : token_rec) (now : Z) :
  tokenStore st !! tok = Some rec ->
  (SHORT_TTL_MS cfg < now - createdAt rec ->
     status (get_b cfg tok (sweep (SHORT_TTL_MS cfg) now st)).1 = 404)
  /\ (now - createdAt rec <= SHORT_TTL_MS cfg ->
        status (get_b cfg tok (sweep (SHORT_TTL_MS cfg) now st)).1 = 200).
Proof.
  intros Hrec.
  assert (Hswept : tokenStore (sweep (SHORT_TTL_MS cfg) now st) !! tok
                   = if stale (SHORT_TTL_MS cfg) now rec then None else Some rec).
  { unfold sweep. simpl. by rewrite pruneTokens_lookup, Hrec. }
  split.
  - intros Hold. apply stale_spec in Hold. rewrite Hold in Hswept.
    by rewrite get_b_absent.
  - intros Hyoung. apply stale_false in Hyoung. rewrite Hyoung in Hswept.
    by rewrite (get_b_present _ _ _ _ Hswept).
Qed.

(** X7: the life of a minted token.  A token minted at clock value [now]
    is served by [/b/<token>] after any sweep run no later than [now + TTL],
    and gives 404 after a sweep run later than that. *)
Theorem minted_token_lifetime
    (cfg : config) (now later : Z) (token : string) (req : request)
    (catalog : fetched wc_product) (st : state) :
  let r := offer_active cfg now token req catalog st in
  let swept := sweep (SHORT_TTL_MS cfg) later r.2 in
  visible (body r.1) = true ->
  (later <= now + SHORT_TTL_MS cfg -> status (get_b cfg token swept).1 = 200)
  /\ (now + SHORT_TTL_MS cfg < later -> status (get_b cfg token swept).1 = 404).
Proof.
  intros r swept Hv. unfold swept, r in *.
  destruct (offer_active_offer _ _ _ _ _ _ Hv)
    as (prod & rest & _ & _ & _ & _ & Hst & _).
  set (rec := {| product_id := prod_id prod;
                 tok_artist_id := artist_id (nowPlaying st); createdAt := now |}).
  assert (Hrec : tokenStore (offer_active cfg now token req catalog st).2 !! token
                 = Some rec).
  { rewrite Hst. simpl. apply lookup_insert_eq. }
  destruct (token_read_by_presence_lemma cfg token _ rec later Hrec) as [Hold Hyoung].
  split.
  - intros Hle. apply Hyoung. simpl. lia.
  - intros Hlt. apply Hold. simpl. lia.
Qed.

Lemma minted_token_lifetime_witness :
  status (get_b cfg0 "a1b2c3d4e5"
            (sweep (SHORT_TTL_MS cfg0) 1802000
               (offer_active cfg0 2000 "a1b2c3d4e5" req0 (IsArray [prod42])
                  st_playing).2)).1 = 200.
Proof.
  apply (minted_token_lifetime cfg0 2000 1802000 "a1b2c3d4e5" req0 (IsArray [prod42])
           st_playing); [vm_compute; reflexivity | vm_compute; discriminate].
Defined.

(** ** Splitting a path *)

Lemma split_slash_cons (c : ascii) (r : string) :
  split_slash (String c r)
  = if Ascii.eqb c "/"%char then EmptyString :: split_slash r
    else match split_slash r with
         | p :: ps => String c p :: ps
         | [] => [String c EmptyString]
         end.
Proof. reflexivity. Qed.

Lemma split_slash_not_nil (s : string) : split_slash s <> [].
Proof.
  destruct s as [|c r]; [done |]. rewrite split_slash_cons.
  destruct (Ascii.eqb c "/"%char); [done |]. by destruct (split_slash r).
Qed.

Lemma concat_cons_cons (sep x : string) (y : string) (l : list string) :
  String.concat sep (x :: y :: l) = x +:+ sep +:+ String.concat sep (y :: l).
Proof. reflexivity. Qed.

Lemma has_char_cons (x c : ascii) (r : string) :
  has_char x (String c r) = Ascii.eqb c x || has_char x r.
Proof. reflexivity. Qed.

Lemma split_slash_pieces (s piece : string) :
  piece ∈ split_slash s -> has_char "/"%char piece = false.
Proof.
  revert piece. induction s as [|c r IH]; intros piece Hin.
  - apply list_elem_of_singleton in Hin. by subst.
  - rewrite split_slash_cons in Hin.
    destruct (Ascii.eqb c "/"%char) eqn:Hc.
    + apply elem_of_cons in Hin as [-> | Hin]; [done | by apply IH].
    + destruct (split_slash r) as [|p ps] eqn:Hr; [by apply split_slash_not_nil in Hr |].
      apply elem_of_cons in Hin as [-> | Hin].
      * rewrite has_char_cons, Hc. simpl. apply IH. by left.
      * apply IH. by right.
Qed.

Lemma path_parts_segment_ok (pathname seg : string) :
  seg ∈ path_parts pathname -> seg <> "" /\ has_char "/"%char seg = false.
Proof.
  intros Hin. split; [by eapply path_parts_nonempty |].
  unfold path_parts in Hin. apply list_elem_of_filter in Hin as [_ Hin].
  by eapply split_slash_pieces.
Qed.

(** X8: [split('/')] loses nothing and leaves no slash behind: joining the
    pieces with ["/"] gives the string back, and no piece contains a slash. *)
Theorem split_slash_join (s : string) :
  String.concat "/" (split_slash s) = s
  /\ forall piece, piece ∈ split_slash s -> has_char "/"%char piece = false.
Proof.
  induction s as [|c r [IHjoin IHfree]].
  - split; [done |]. intros piece Hin. apply list_elem_of_singleton in Hin. by subst.
  - rewrite split_slash_cons.
    destruct (Ascii.eqb c "/"%char) eqn:Hc.
    + apply Ascii.eqb_eq in Hc. subst c. split.
      * destruct (split_slash r) as [|p ps] eqn:Hr; [by apply split_slash_not_nil in Hr |].
        rewrite concat_cons_cons, IHjoin. done.
      * intros piece Hin. apply elem_of_cons in Hin as [-> | Hin]; [done | by apply IHfree].
    + destruct (split_slash r) as [|p ps] eqn:Hr; [by apply split_slash_not_nil in Hr |].
      split.
      * destruct ps as [|q qs].
        -- simpl in *. by rewrite IHjoin.
        -- rewrite concat_cons_cons in *. rewrite append_cons. by rewrite IHjoin.
      * intros piece Hin. apply elem_of_cons in Hin as [-> | Hin].
        -- rewrite has_char_cons, Hc. simpl. apply IHfree. by left.
        -- apply IHfree. by right.
Qed.

Lemma split_slash_app (a b : string) :
  split_slash (a +:+ "/" +:+ b) = split_slash a ++ split_slash b.
Proof.
  induction a as [|c a IH].
  - reflexivity.
  - rewrite append_cons, !split_slash_cons, IH.
    destruct (Ascii.eqb c "/"%char); [done |].
    destruct (split_slash a) as [|p ps] eqn:Ha; [by apply split_slash_not_nil in Ha |].
    done.
Qed.

(** X9: the segments of a path are those of its two halves around any
    slash, in order; empty pieces never count, so leading, trailing and
    doubled slashes make no difference; and every segment is non-empty and
    free of slashes. *)
Theorem path_parts_app (a b : string) :
  path_parts (a +:+ "/" +:+ b) = path_parts a ++ path_parts b
  /\ path_parts ("/" +:+ b) = path_parts b
  /\ path_parts (a +:+ "/") = path_parts a
  /\ path_parts (a +:+ "//" +:+ b) = path_parts (a +:+ "/" +:+ b)
  /\ forall seg, seg ∈ path_parts a -> seg <> "" /\ has_char "/"%char seg = false.
Proof.
  assert (Happ : forall x y, path_parts (x +:+ "/" +:+ y) = path_parts x ++ path_parts y).
  { intros x y. unfold path_parts. by rewrite split_slash_app, filter_app. }
  split; [apply Happ |].
  split; [apply (Happ "" b) |].
  split.
  { change (a +:+ "/") with (a +:+ "/" +:+ ""). rewrite Happ.
    change (path_parts "") with (@nil string). by rewrite app_nil_r. }
  split.
  { change (a +:+ "//" +:+ b) with (a +:+ "/" +:+ ("/" +:+ b)).
    rewrite (Happ a ("/" +:+ b)), (Happ a b). by f_equal. }
  intros seg Hin. by eapply path_parts_segment_ok.
Qed.

(** ** Stripping dashes, and [indexOf] *)

(** X10: [replace(/-+$/, '')] cuts a string into what it returns and a run
    of dashes: the string is the result followed by some number of dashes,
    and the result does not end with a dash. *)
Theorem strip_dashes_decompose (s : string) :
  (exists n, s = strip_dashes s +:+ dashes n)
  /\ ends_with_dash (strip_dashes s) = false.
Proof.
  split; [| apply strip_dashes_no_trailing].
  induction s as [|c r [n IH]].
  - by exists 0%nat.
  - rewrite strip_dashes_cons.
    destruct (Ascii.eqb c "-"%char) eqn:Hc; simpl.
    + destruct (String.eqb (strip_dashes r) "") eqn:Hr.
      * apply Ascii.eqb_eq in Hc. apply String.eqb_eq in Hr.
        rewrite Hr in IH. exists (S n). simpl in IH. rewrite IH at 1. by subst c.
      * exists n. rewrite append_cons. by rewrite <- IH.
    + exists n. rewrite append_cons. by rewrite <- IH.
Qed.

(** X11: [indexOf] answers [-1] exactly for a value that is not in the
    list, and otherwise the position of its first occurrence, which is a
    valid index. *)
Theorem indexOf_spec (parts : list string) (x : string) :
  (indexOf parts x = -1 <-> x ∉ parts)
  /\ (x ∈ parts ->
        exists pre rest,
          parts = pre ++ x :: rest /\ (x ∉ pre)
          /\ indexOf parts x = Z.of_nat (length pre)
          /\ parts !! Z.to_nat (indexOf parts x) = Some x)
  /\ -1 <= indexOf parts x < Z.of_nat (length parts).
Proof.
  unfold indexOf.
  destruct (first_occurrence parts x) as [Habs | (pre & rest & -> & Hpre)].
  - rewrite indexOf_from_absent by done. repeat split; try done; lia.
  - rewrite indexOf_from_first by done.
    assert (Hin : x ∈ pre ++ x :: rest).
    { rewrite elem_of_app. right. by left. }
    split; [split; [lia | done] |]. split.
    + intros _. exists pre, rest. repeat split; try done.
      replace (Z.to_nat (0 + Z.of_nat (length pre))) with (length pre + 0)%nat by lia.
      by rewrite lookup_app_r, Nat.add_comm, Nat.add_sub by lia.
    + rewrite length_app. simpl. lia.
Qed.

Lemma indexOf_spec_witness :
  exists pre rest,
    ["hls"; "live_cdn"; "app"; "live_cdn"] = pre ++ "live_cdn" :: rest
    /\ indexOf ["hls"; "live_cdn"; "app"; "live_cdn"] "live_cdn" = Z.of_nat (length pre).
Proof.
  destruct (indexOf_spec ["hls"; "live_cdn"; "app"; "live_cdn"] "live_cdn")
    as (_ & Hin & _).
  destruct Hin as (pre & rest & Heq & _ & Hidx & _).
  - apply elem_of_cons. right. by left.
  - exists pre, rest. split; [exact Heq | exact Hidx].
Defined.

(** ** What a 200 from [/resolve/stream] carries *)

Lemma parse_parts_cases (parts : list string) :
  parse_parts parts = out0
  \/ exists pre app seg rest,
       parts = pre ++ "live_cdn" :: app :: seg :: rest /\ ("live_cdn" ∉ pre)
       /\ parse_parts parts = parsed app seg.
Proof.
  destruct (first_occurrence parts "live_cdn") as [Habs | (pre & after & -> & Hpre)].
  - left. by apply parse_parts_no_marker.
  - destruct after as [|app [|seg rest]].
    + left. apply parse_parts_short; [done | simpl; lia].
    + left. apply parse_parts_short; [done | simpl; lia].
    + right. exists pre, app, seg, rest. repeat split; try done.
      by apply parse_parts_marker.
Qed.

Lemma has_char_strip_dashes (x : ascii) (s : string) :
  has_char x s = false -> has_char x (strip_dashes s) = false.
Proof.
  induction s as [|c r IH]; [done |].
  rewrite has_char_cons, strip_dashes_cons. intros H.
  apply orb_false_iff in H as [Hc Hr].
  destruct (Ascii.eqb c "-"%char && String.eqb (strip_dashes r) ""); [done |].
  rewrite has_char_cons, Hc. simpl. by apply IH.
Qed.

Lemma resolve_stream_ok_inv (url_pathname : string -> option string) (cfg : config)
    (m3u8 : value) (directory : fetched (option stream)) :
  status (resolve_stream url_pathname cfg m3u8 directory) = 200 ->
  truthy m3u8 = true
  /\ exists p, url_pathname (to_string m3u8) = Some p
               /\ unparsed (parse_parts (path_parts p)) = false.
Proof.
  destruct (truthy m3u8) eqn:Ht.
  2:{ unfold resolve_stream. rewrite Ht. done. }
  destruct (url_pathname (to_string m3u8)) as [p|] eqn:Hp.
  2:{ unfold resolve_stream. rewrite Ht.
      rewrite (eqb_string_false _ _ (to_string_truthy _ Ht)), Hp. done. }
  rewrite (resolve_stream_url _ _ _ _ _ Ht Hp). cbv zeta.
  destruct (unparsed _) eqn:Hu; [done |]. intros _. split; [done |]. by exists p.
Qed.

(** X12: every 200 of [/resolve/stream] carries an application id and a
    stream key that are non-empty and free of slashes, and the stream key
    does not end with a dash. *)
Theorem resolve_stream_ok_shape
    (url_pathname : string -> option string) (cfg : config)
    (m3u8 : value) (directory : fetched (option stream)) :
  let r := resolve_stream url_pathname cfg m3u8 directory in
  status r = 200 ->
  exists out app key,
    body r = ResolveResult out
    /\ appId out = Some app /\ streamKey out = Some key
    /\ app <> "" /\ key <> ""
    /\ ends_with_dash key = false
    /\ has_char "/"%char app = false /\ has_char "/"%char key = false.
Proof.
  intros r H200. unfold r in *.
  destruct (resolve_stream_ok_inv _ _ _ _ H200) as (Ht & p & Hp & Hu).
  rewrite (resolve_stream_url _ _ _ _ _ Ht Hp). cbv zeta. rewrite Hu.
  destruct (parse_parts_cases (path_parts p))
    as [Hout0 | (pre & app & seg & rest & Hparts & Hpre & Hparsed)].
  { rewrite Hout0 in Hu. done. }
  rewrite Hparsed in *.
  destruct (path_parts_segment_ok p app) as [Happ Hslash_app].
  { rewrite Hparts, elem_of_app. right. apply elem_of_cons. right. by left. }
  destruct (path_parts_segment_ok p seg) as [_ Hslash_seg].
  { rewrite Hparts, elem_of_app. right. apply elem_of_cons. right.
    apply elem_of_cons. right. by left. }
  rewrite (unparsed_parsed _ _ Happ) in Hu. apply String.eqb_neq in Hu.
  assert (Hshape : forall out,
            appId out = Some app -> streamKey out = Some (strip_dashes seg) ->
            exists app' key, appId out = Some app' /\ streamKey out = Some key
              /\ app' <> "" /\ key <> "" /\ ends_with_dash key = false
              /\ has_char "/"%char app' = false /\ has_char "/"%char key = false).
  { intros out Ha Hk. exists app, (strip_dashes seg). repeat split; try done.
    - apply strip_dashes_no_trailing.
    - by apply has_char_strip_dashes. }
  destruct (negb (String.eqb (LIVEPUSH_API_TOKEN cfg) "")).
  - destruct (livepush_lookup_keeps_parse directory (parsed app seg)) as [Ha Hk].
    destruct (Hshape _ Ha Hk) as (a & k & Hak).
    exists (livepush_lookup directory (parsed app seg)), a, k. by split.
  - destruct (Hshape (parsed app seg) eq_refl eq_refl) as (a & k & Hak).
    exists (parsed app seg), a, k. by split.
Qed.

Lemma resolve_stream_ok_shape_witness :
  exists out app key,
    body (resolve_stream sample_pathname cfg_livepush
            (VStr "https://cdn.example/live_cdn/app/abc--/index.m3u8") NotArray)
    = ResolveResult out
    /\ appId out = Some app /\ streamKey out = Some key /\ ends_with_dash key = false.
Proof.
  destruct (resolve_stream_ok_shape sample_pathname cfg_livepush
              (VStr "https://cdn.example/live_cdn/app/abc--/index.m3u8") NotArray)
    as (out & app & key & Hb & Ha & Hk & _ & _ & Hd & _); [vm_compute; reflexivity |].
  exists out, app, key. by repeat split.
Defined.

(** X13: without a Livepush token the directory is never consulted: the
    response is the same whatever the directory would have said, and a 200
    carries [streamId = null] and an empty [raw]. *)
Theorem resolve_stream_without_token
    (url_pathname : string -> option string) (cfg : config)
    (m3u8 : value) (d1 d2 : fetched (option stream)) :
  LIVEPUSH_API_TOKEN cfg = "" ->
  resolve_stream url_pathname cfg m3u8 d1 = resolve_stream url_pathname cfg m3u8 d2
  /\ forall out, body (resolve_stream url_pathname cfg m3u8 d1) = ResolveResult out ->
       streamId out = VNull /\ raw out = raw out0.
Proof.
  intros Htok. unfold resolve_stream. rewrite Htok. simpl.
  split; [done |]. intros out.
  destruct (String.eqb _ ""); [done |].
  destruct (url_pathname _) as [p|]; [| done].
  destruct (negb _ || negb _); [done |].
  intros [= <-].
  destruct (parse_parts_cases (path_parts p))
    as [-> | (pre & app & seg & rest & _ & _ & ->)]; done.
Qed.

Lemma resolve_stream_without_token_witness :
  resolve_stream sample_pathname cfg0
    (VStr "https://cdn.example/live_cdn/app/abc--/index.m3u8") FetchThrows
  = resolve_stream sample_pathname cfg0
      (VStr "https://cdn.example/live_cdn/app/abc--/index.m3u8")
      (IsArray [dir_record "abc" 2]).
Proof.
  apply (resolve_stream_without_token sample_pathname cfg0
           (VStr "https://cdn.example/live_cdn/app/abc--/index.m3u8")).
  reflexivity.
Defined.

(** ** The resolver and the matcher together *)

Lemma find_stream_some (key : string) (arr : list (option stream)) (s : stream) :
  Forall (fun e => directory_key e <> None) arr ->
  Some s ∈ arr -> directory_key (Some s) = Some key ->
  exists found, find_stream key arr = Found found
                /\ directory_key (Some found) = Some key.
Proof.
  intros Hok Hin Hkey. pose proof (find_stream_spec key arr) as Hspec.
  rewrite Forall_forall in Hok.
  destruct (find_stream key arr) as [| |found].
  - destruct Hspec as (before & e & after & -> & He & _).
    destruct (Hok e); [| done]. rewrite elem_of_app. right. by left.
  - rewrite Forall_forall in Hspec.
    destruct (Hspec _ Hin) as (k & Hk & Hne). congruence.
  - destruct Hspec as (_ & _ & _ & Hk & _). by exists found.
Qed.

(** X14: dashes at the end make no difference on either side.  If the key
    segment of the URL is [key] followed by any number of dashes, the
    callback can read a key off every element of the directory (none is
    [null], and every [streamKey] is a string or falsy), and the directory
    lists a record whose stream key is [key] followed by any number of
    dashes, then with a token configured the handler answers 200 with a
    match: [raw.match] is the first record of the directory whose stripped
    key is [key], [streamId] is that record's id (or null when the id is
    falsy), and [raw.streamsCount] is the length of the directory. *)
Theorem resolve_stream_matches_modulo_dashes
    (url_pathname : string -> option string) (cfg : config)
    (url p : string) (pre rest : list string) (app key : string) (n m : nat)
    (arr : list (option stream)) (s : stream) :
  url <> "" ->
  url_pathname url = Some p ->
  path_parts p = pre ++ "live_cdn" :: app :: (key +:+ dashes n) :: rest ->
  "live_cdn" ∉ pre ->
  key <> "" -> ends_with_dash key = false ->
  LIVEPUSH_API_TOKEN cfg <> "" ->
  Forall (fun e => directory_key e <> None) arr ->
  Some s ∈ arr -> dir_streamKey s = JScalar (VStr (key +:+ dashes m)) ->
  exists found,
    find_stream key arr = Found found
    /\ directory_key (Some found) = Some key
    /\ resolve_stream url_pathname cfg (VStr url) (IsArray arr)
       = Response 200 (ResolveResult
           {| appId := Some app; streamKey := Some key;
              streamId := js_or (dir_id found) VNull;
              raw := {| streamsCount := Some (Z.of_nat (length arr));
                        raw_match := Some found; raw_error := None |} |}).
Proof.
  intros Hurl Hp Hparts Hpre Hkey Hend Htoken Hok Hin Hs.
  assert (Hstrip : forall k, strip_dashes (key +:+ dashes k) = key).
  { intros k. by rewrite strip_dashes_app, strip_dashes_id. }
  destruct (find_stream_some key arr s Hok Hin) as (found & Hfound & Hk).
  { unfold directory_key. rewrite Hs.
    assert (Ht : truthy (VStr (key +:+ dashes m)) = true).
    { simpl. apply negb_true_iff, String.eqb_neq. intros H.
      destruct key; [done | discriminate H]. }
    rewrite Ht. by rewrite Hstrip. }
  exists found. split; [done |]. split; [done |].
  assert (Ht : truthy (VStr url) = true).
  { simpl. by rewrite eqb_string_false. }
  assert (Happ : app <> "").
  { apply (path_parts_nonempty p). rewrite Hparts, elem_of_app. right.
    apply elem_of_cons. right. by left. }
  rewrite (resolve_stream_url _ _ _ _ _ Ht Hp). cbv zeta.
  rewrite Hparts, parse_parts_marker by done.
  fold (parsed app (key +:+ dashes n)).
  rewrite (unparsed_parsed _ _ Happ), Hstrip, (eqb_string_false _ _ Hkey).
  rewrite (eqb_string_false _ _ Htoken). simpl negb. cbv iota.
  unfold livepush_lookup, parsed. simpl streamKey. rewrite Hstrip. simpl default.
  rewrite Hfound. reflexivity.
Qed.

Lemma resolve_stream_matches_modulo_dashes_witness :
  exists found,
    resolve_stream sample_pathname cfg_livepush
      (VStr "https://cdn.example/live_cdn/app/abc-/index.m3u8")
      (IsArray [dir_record "xyz" 7; dir_record "abc---" 9])
    = Response 200 (ResolveResult
        {| appId := Some "app"; streamKey := Some "abc";
           streamId := js_or (dir_id found) VNull;
           raw := {| streamsCount := Some 2; raw_match := Some found;
                     raw_error := None |} |}).
Proof.
  destruct (resolve_stream_matches_modulo_dashes sample_pathname cfg_livepush
              "https://cdn.example/live_cdn/app/abc-/index.m3u8"
              "/live_cdn/app/abc-/index.m3u8" [] ["index.m3u8"] "app" "abc" 1 3
              [dir_record "xyz" 7; dir_record "abc---" 9]
              {| dir_streamKey := JScalar (VStr "abc---"); dir_id := VNum 9 |})
    as (found & _ & _ & Hr);
    [ done | reflexivity | reflexivity | apply not_elem_of_nil | done | reflexivity
    | vm_compute; discriminate
    | repeat constructor; vm_compute; discriminate
    | apply elem_of_cons; right; by left | reflexivity | ].
  exists found. exact Hr.
Defined.

(** X15: after a directory lookup on a fresh parse, [streamId] is null
    exactly when no record matches, or the callback throws before one
    does, or the first matching record has a falsy id (0, empty, null,
    absent); in the last case the record is still reported as [raw.match].
    [raw.error] is set exactly when the callback throws. *)
Theorem livepush_lookup_null_id (app seg : string) (arr : list (option stream)) :
  let out := livepush_lookup (IsArray arr) (parsed app seg) in
  (streamId out = VNull <->
     find_stream (strip_dashes seg) arr = NotFound
     \/ find_stream (strip_dashes seg) arr = FindThrows
     \/ exists found, find_stream (strip_dashes seg) arr = Found found
                      /\ truthy (dir_id found) = false)
  /\ raw_match (raw out) = match find_stream (strip_dashes seg) arr with
                           | Found found => Some found
                           | _ => None
                           end
  /\ (raw_error (raw out) = Some "livepush_lookup_failed" <->
        find_stream (strip_dashes seg) arr = FindThrows).
Proof.
  cbv zeta. unfold livepush_lookup, parsed. simpl streamKey. simpl default.
  destruct (find_stream (strip_dashes seg) arr) as [| |found]; simpl.
  - split; [| done]. split; [| done]. intros _. right. by left.
  - split; [| done]. split; [| done]. intros _. by left.
  - split; [| done]. unfold js_or. split.
    + intros Hnull. right. right. exists found. split; [done |].
      destruct (truthy (dir_id found)) eqn:Hid; [| done].
      rewrite Hnull in Hid. done.
    + intros [? | [? | (f & [= <-] & Hid)]]; [done | done |]. by rewrite Hid.
Qed.

(** ** The description of the snapshot *)

Lemma strip_tags_cons (c : ascii) (r : string) :
  strip_tags (String c r)
  = if Ascii.eqb c "<"%char then
      match skip_tag r with
      | Some out => out
      | None => String c (strip_tags r)
      end
    else String c (strip_tags r).
Proof. reflexivity. Qed.

Lemma skip_tag_cons (c : ascii) (r : string) :
  skip_tag (String c r)
  = if Ascii.eqb c ">"%char then Some (strip_tags r) else skip_tag r.
Proof. reflexivity. Qed.

Lemma has_tag_cons (c : ascii) (r : string) :
  has_tag (String c r) = (Ascii.eqb c "<"%char && has_gt r) || has_tag r.
Proof. reflexivity. Qed.

Lemma has_gt_cons (c : ascii) (r : string) :
  has_gt (String c r) = Ascii.eqb c ">"%char || has_gt r.
Proof. reflexivity. Qed.

(** Stripping keeps no [>] that was not there, and a string without [>]
    has nothing to skip to. *)
Lemma strip_tags_gt (s : string) :
  (has_gt s = false -> has_gt (strip_tags s) = false)
  /\ (forall out, skip_tag s = Some out -> has_gt s = false -> has_gt out = false).
Proof.
  induction s as [|c r [IHs IHk]]; [done |].
  rewrite strip_tags_cons, skip_tag_cons, has_gt_cons. split.
  - intros H. apply orb_false_iff in H as [Hc Hr].
    destruct (Ascii.eqb c "<"%char).
    + destruct (skip_tag r) as [out|] eqn:Hk; [by apply IHk |].
      rewrite has_gt_cons, Hc. by apply IHs.
    + rewrite has_gt_cons, Hc. by apply IHs.
  - intros out Hk H. apply orb_false_iff in H as [Hc Hr]. rewrite Hc in Hk.
    by apply IHk.
Qed.

Lemma skip_tag_none (s : string) : skip_tag s = None -> has_gt s = false.
Proof.
  induction s as [|c r IH]; [done |].
  rewrite skip_tag_cons, has_gt_cons.
  destruct (Ascii.eqb c ">"%char); [done |]. exact IH.
Qed.

Lemma strip_tags_has_tag (s : string) :
  has_tag (strip_tags s) = false
  /\ (forall out, skip_tag s = Some out -> has_tag out = false).
Proof.
  induction s as [|c r [IHs IHk]]; [done |].
  rewrite strip_tags_cons, skip_tag_cons. split.
  - destruct (Ascii.eqb c "<"%char) eqn:Hc.
    + destruct (skip_tag r) as [out|] eqn:Hk; [by apply IHk |].
      rewrite has_tag_cons, IHs, orb_false_r.
      apply skip_tag_none in Hk. rewrite (proj1 (strip_tags_gt r) Hk).
      apply andb_false_r.
    + by rewrite has_tag_cons, Hc, IHs.
  - intros out. destruct (Ascii.eqb c ">"%char); [by intros [= <-] | apply IHk].
Qed.

Lemma has_gt_app (b c : string) : has_gt (b +:+ ">" +:+ c) = true.
Proof.
  induction b as [|x b IH]; [done |].
  rewrite append_cons, has_gt_cons, IH. apply orb_true_r.
Qed.

(** The boolean test is the absence of a [<] with a [>] after it. *)
Lemma has_tag_false (s : string) :
  has_tag s = false -> forall a b c, s <> a +:+ "<" +:+ b +:+ ">" +:+ c.
Proof.
  intros H a. revert s H. induction a as [|x a IH]; intros s H b c ->.
  - change ("" +:+ "<" +:+ b +:+ ">" +:+ c) with (String "<"%char (b +:+ ">" +:+ c)) in H.
    rewrite has_tag_cons, has_gt_app in H. done.
  - rewrite append_cons, has_tag_cons in H. apply orb_false_iff in H as [_ H].
    by eapply IH.
Qed.

Lemma strip_tags_plain (s : string) :
  has_char "<"%char s = false -> strip_tags s = s.
Proof.
  induction s as [|c r IH]; [done |].
  rewrite has_char_cons, strip_tags_cons. intros H.
  apply orb_false_iff in H as [Hc Hr]. rewrite Hc. by rewrite IH.
Qed.

(** X16: after [replace(/<[^>]*>/g, '')] no tag is left: the result has no
    [<] with a [>] anywhere after it.  A text without [<] comes out as it
    went in, and stripping twice is stripping once. *)
Theorem strip_tags_no_tag (s : string) :
  (forall a b c, strip_tags s <> a +:+ "<" +:+ b +:+ ">" +:+ c)
  /\ (has_char "<"%char s = false -> strip_tags s = s)
  /\ strip_tags (strip_tags s) = strip_tags s.
Proof.
  split; [apply has_tag_false, strip_tags_has_tag |].
  split; [apply strip_tags_plain |].
  assert (Hfix : forall t, has_tag t = false -> strip_tags t = t).
  { induction t as [|c r IH]; [done |].
    rewrite has_tag_cons, strip_tags_cons. intros H.
    apply orb_false_iff in H as [Hc Hr]. rewrite (IH Hr).
    destruct (Ascii.eqb c "<"%char); [| done].
    simpl in Hc. destruct (skip_tag r) as [out|] eqn:Hk; [| done].
    exfalso. clear -Hc Hk. revert out Hk. induction r as [|x r IHr]; [done |].
    intros out. rewrite skip_tag_cons. rewrite has_gt_cons in Hc.
    apply orb_false_iff in Hc as [Hx Hr]. rewrite Hx. by apply IHr. }
  apply Hfix, strip_tags_has_tag.
Qed.







(** ** [/offer/active] interleaved with other turns *)

Lemma offer_start_some (cfg : config) (st : state) (a : value) :
  offer_start cfg st = Some a -> a = artist_id (nowPlaying st) /\ truthy a = true.
Proof.
  unfold offer_start.
  destruct (truthy (artist_id (nowPlaying st))) eqn:Ht; [| done]. simpl.
  destruct (negb (truthy_property _)); [done |]. by intros [= <-].
Qed.

Lemma offer_finish_cases (cfg : config) (now : Z) (token : string) (req : request)
    (catalog : fetched wc_product) (a : value) (st : state) :
  offer_finish cfg now token req catalog a st = (no_offer cfg, st)
  \/ exists prod,
       truthy (prod_id prod) = true
       /\ (offer_finish cfg now token req catalog a st).2
          = {| nowPlaying := nowPlaying st;
               tokenStore := <[ token := {| product_id := prod_id prod;
                                            tok_artist_id := a;
                                            createdAt := now |} ]> (tokenStore st) |}
       /\ visible (body (offer_finish cfg now token req catalog a st).1) = true
       /\ artist (body (offer_finish cfg now token req catalog a st).1)
          = Some {| a_id := a; a_name := js_or (artist_name (nowPlaying st)) a |}.
Proof.
  unfold offer_finish.
  destruct (first_product catalog) as [[prod|]|]; try by left.
  destruct (unsellable prod) eqn:Hsell; [by left |].
  right. exists prod. repeat split; try done.
  unfold unsellable in Hsell. apply orb_false_iff in Hsell as [Hsell _].
  apply orb_false_iff in Hsell as [Hsell _]. by apply negb_false_iff in Hsell.
Qed.

(** X18: the two halves of [/offer/active], run back to back on one state,
    are the whole handler.  When other turns come in between, so that the
    second half runs on a later state [st'], an offer still names the artist
    that was playing when the request came in, in [artist.id] and in the
    token record, while [artist.name] is read from [st']: the name of
    whoever is playing by then. *)
Theorem offer_active_two_phase
    (cfg : config) (now : Z) (token : string) (req : request)
    (catalog : fetched wc_product) (st st' : state) :
  offer_active cfg now token req catalog st
  = match offer_start cfg st with
    | None => (no_offer cfg, st)
    | Some a => offer_finish cfg now token req catalog a st
    end
  /\ forall a,
       offer_start cfg st = Some a ->
       visible (body (offer_finish cfg now token req catalog a st').1) = true ->
       artist (body (offer_finish cfg now token req catalog a st').1)
       = Some {| a_id := artist_id (nowPlaying st);
                 a_name := js_or (artist_name (nowPlaying st'))
                                 (artist_id (nowPlaying st)) |}
       /\ exists rec,
            tokenStore (offer_finish cfg now token req catalog a st').2 !! token
            = Some rec
            /\ tok_artist_id rec = artist_id (nowPlaying st)
            /\ createdAt rec = now.
Proof.
  split.
  - unfold offer_active, offer_start, offer_finish.
    destruct (negb (truthy _)); [done |].
    by destruct (negb (truthy_property _)).
  - intros a Ha Hv. apply offer_start_some in Ha as [-> _].
    destruct (offer_finish_cases cfg now token req catalog (artist_id (nowPlaying st)) st')
      as [Hno | (prod & _ & Hst & _ & Hartist)].
    + rewrite Hno in Hv. done.
    + split; [done |]. eexists. rewrite Hst. simpl. rewrite lookup_insert_eq.
      by repeat split.
Qed.

Lemma offer_active_two_phase_witness :
  let st' := (post_nowplaying 1500
                {| req_artist_id := VStr "someone"; req_artist_name := VStr "Some One" |}
                st_playing).2 in
  artist (body (offer_finish cfg0 2000 "a1b2c3d4e5" req0 (IsArray [prod42])
                  (VStr "colleenanthony") st').1)
  = Some {| a_id := VStr "colleenanthony"; a_name := VStr "Some One" |}.
Proof.
  cbv zeta.
  destruct (offer_active_two_phase cfg0 2000 "a1b2c3d4e5" req0 (IsArray [prod42])
              st_playing
              (post_nowplaying 1500
                 {| req_artist_id := VStr "someone"; req_artist_name := VStr "Some One" |}
                 st_playing).2) as [_ H].
  destruct (H (VStr "colleenanthony")) as [Ha _];
    [vm_compute; reflexivity | vm_compute; reflexivity |].
  exact Ha.
Defined.

(** ** What every run of the server keeps *)

Lemma run_snoc (cfg : config) (turns : list turn) (t : turn) (sys : system) :
  run cfg (turns ++ [t]) sys = step cfg (run cfg turns sys) t.
Proof. unfold run. by rewrite fold_left_app. Qed.

Lemma step_ok (cfg : config) (sys : system) (t : turn) :
  system_ok sys -> system_ok (step cfg sys t).
Proof.
  intros (Hnp & Htok & Hfly). destruct t as [now b | req | i now token catalog | token | now].
  - (* POST /nowplaying *)
    unfold step, post_nowplaying.
    destruct (truthy (req_artist_id b)) eqn:Hid; simpl; [| done].
    split; [| split; [exact Htok | exact Hfly]].
    right. simpl. split; [done |]. unfold js_or.
    by destruct (truthy (req_artist_name b)) eqn:Hname.
  - (* first half of /offer/active *)
    unfold step. destruct (offer_start cfg (sys_state sys)) as [a|] eqn:Ha; [| done].
    split; [exact Hnp | split; [exact Htok |]]. simpl. intros p Hp.
    apply elem_of_app in Hp as [Hp | Hp]; [by apply Hfly |].
    apply list_elem_of_singleton in Hp as ->. simpl.
    by apply offer_start_some in Ha as [_ ?].
  - (* second half of /offer/active *)
    unfold step. destruct (in_flight sys !! i) as [[a req]|] eqn:Hi; [| done].
    assert (Ha : truthy a = true).
    { apply (Hfly (a, req)). by eapply list_elem_of_lookup_2. }
    assert (Hfly' : forall p, p ∈ delete i (in_flight sys) -> truthy p.1 = true).
    { intros p Hp. by apply Hfly, (list_elem_of_delete_inv _ i). }
    destruct (offer_finish_cases cfg now token req catalog a (sys_state sys))
      as [Hno | (prod & Hprod & Hst & _)].
    + rewrite Hno. split; [exact Hnp | split; [exact Htok | exact Hfly']].
    + rewrite Hst. split; [exact Hnp | split; [| exact Hfly']].
      simpl. intros tok rec.
      destruct (decide (tok = token)) as [->|Hne].
      * rewrite lookup_insert_eq. intros [= <-]. by split.
      * rewrite lookup_insert_ne by done. apply Htok.
  - (* GET /b/:token *)
    unfold step. rewrite get_b_state. by split.
  - (* the sweep timer *)
    unfold step, sweep. split; [exact Hnp | split; [| exact Hfly]].
    simpl. intros tok rec. rewrite pruneTokens_lookup.
    destruct (tokenStore (sys_state sys) !! tok) as [obj|] eqn:Hobj; [| done].
    destruct (stale _ now obj); [done |]. intros [= <-]. by eapply Htok.
Qed.

(** X19: whatever turns the server takes from start-up - posts, offers
    begun and finished in any interleaving, token reads, sweeps - the
    now-playing record is either the start-up one or has a truthy id and a
    truthy name, every token in the store has a truthy product id and a
    truthy artist id, and every waiting offer holds a truthy artist id. *)
Theorem run_keeps_shape (cfg : config) (turns : list turn) :
  system_ok (run cfg turns system0).
Proof.
  induction turns as [|t turns IH] using rev_ind.
  - split; [by left | split].
    + intros tok rec. simpl. by rewrite lookup_empty.
    + intros p Hp. by apply elem_of_nil in Hp.
  - rewrite run_snoc. by apply step_ok.
Qed.

(** X20: every token in the store was put there by the second half of an
    [/offer/active] that drew it: after any run from start-up, a record
    found under a token has as [createdAt] the clock value of a turn of the
    run that finished an offer with that token. *)
Theorem tokens_come_from_offers
    (cfg : config) (turns : list turn) (tok : string) (rec : token_rec) :
  tokenStore (sys_state (run cfg turns system0)) !! tok = Some rec ->
  exists i now catalog,
    OfferEnd i now tok catalog ∈ turns /\ createdAt rec = now.
Proof.
  revert tok rec. induction turns as [|t turns IH] using rev_ind; intros tok rec.
  - simpl. by rewrite lookup_empty.
  - rewrite run_snoc.
    assert (Hold : tokenStore (sys_state (run cfg turns system0)) !! tok = Some rec ->
                   exists i now catalog,
                     OfferEnd i now tok catalog ∈ turns ++ [t] /\ createdAt rec = now).
    { intros H. destruct (IH _ _ H) as (i & now & catalog & Hin & Hat).
      exists i, now, catalog. split; [| done]. apply elem_of_app. by left. }
    destruct t as [now b | req | i now token catalog | token | now]; unfold step.
    + unfold post_nowplaying. by destruct (truthy (req_artist_id b)).
    + by destruct (offer_start cfg _).
    + destruct (in_flight _ !! i) as [[a req]|]; [| done].
      destruct (offer_finish_cases cfg now token req catalog a
                  (sys_state (run cfg turns system0))) as [Hno | (prod & _ & Hst & _)].
      * by rewrite Hno.
      * rewrite Hst. simpl. destruct (decide (tok = token)) as [->|Hne].
        -- rewrite lookup_insert_eq. intros [= <-].
           exists i, now, catalog. split; [| done].
           apply elem_of_app. right. by apply list_elem_of_singleton.
        -- by rewrite lookup_insert_ne.
    + by rewrite get_b_state.
    + unfold sweep. simpl. rewrite pruneTokens_lookup.
      destruct (tokenStore _ !! tok) as [obj|] eqn:Hobj; [| done].
      destruct (stale _ now obj); [done |]. intros [= <-]. by apply Hold.
Qed.

(** A run of the server: a post, an offer begun, a sweep while the catalog
    is asked, and the offer finished. *)
Lemma tokens_come_from_offers_witness :
  let turns :=
    [ PostNowPlaying 1000
        {| req_artist_id := VStr "colleenanthony"; req_artist_name := VNull |};
      OfferBegin req0;
      SweepTimer 1500;
      OfferEnd 0 2000 "a1b2c3d4e5" (IsArray [prod42]) ] in
  exists i now catalog,
    OfferEnd i now "a1b2c3d4e5" catalog ∈ turns /\ 2000 = now.
Proof.
  cbv zeta.
  apply (tokens_come_from_offers cfg0 _ "a1b2c3d4e5"
           {| product_id := VNum 42; tok_artist_id := VStr "colleenanthony";
              createdAt := 2000 |}).
  vm_compute. reflexivity.
Defined.

(** ** The TTL settings *)

